(** * nbt.hpp: a reader for the NBT binary tag format

    A shallow embedding of [nbt.hpp] (namespace [nbt]) and the properties of
    its decoder.

    Conventions of the embedding.
    - A [std::istream] is the list of bytes not yet extracted together with
      its [good()] state; [std::istream::read] is [istream_read].  The stream
      is used with its default exception mask (as [example.cpp] does), so a
      short read throws nothing: it sets the failure state.
    - A fixed-width C++ value is a [Z]; its object representation on the host
      is a list of bytes whose order depends on [isHostLittleEndian].  [float]
      and [double] values are carried as their IEEE bit patterns, the decoder
      only ever moves their bytes.
    - A C++ exception is the outcome [Throw]; reading a variable whose bytes
      were not all written by the stream is the outcome [Undefined].
    - Memory is unbounded: [std::vector::resize] always succeeds, where the
      code throws [std::bad_alloc] if the vector asked for cannot be had.
      The statements about whole payloads ([wire_ok]) bound the counts that
      are read, so that what is sized is small.
    - [std::unordered_map] is a [gmap]: the order of iteration, which the
      standard leaves open, is not part of the model.
    - The recursion of [makeTag] through [TagList] and [TagCompound] is driven
      by a fuel argument; [length_lt_fuel] shows that one more unit than
      there are unread bytes is always enough, and [makeTag_fuel_mono] that
      more fuel changes nothing. *)

From Stdlib Require Import ZArith Lia List String Strings.Byte DecimalString.
From coqutil Require Import Byte Word.LittleEndianList.
From stdpp Require Import gmap strings list.

#[local] Set Warnings "-register-all".
#[local] Open Scope Z_scope.

(** ** Exceptions and outcomes *)

Inductive exception : Type :=
| invalid_argument (what : string)
| runtime_error (what : string).

(** [std::istream]: the bytes still to be extracted, and [good()]. *)
Record istream : Type := mk_istream { unread : list byte; good : bool }.

Inductive result (A : Type) : Type :=
| Ok (a : A) (buf : istream)
| Throw (e : exception) (buf : istream)
| Undefined
| OutOfFuel.

Arguments Ok {A} a buf.
Arguments Throw {A} e buf.
Arguments Undefined {A}.
Arguments OutOfFuel {A}.

Definition reader (A : Type) : Type := istream -> result A.

Definition bind {A B : Type} (m : reader A) (k : A -> reader B) : reader B :=
  fun buf =>
    match m buf with
    | Ok a buf' => k a buf'
    | Throw e buf' => Throw e buf'
    | Undefined => Undefined
    | OutOfFuel => OutOfFuel
    end.

Definition ret {A : Type} (a : A) : reader A := fun buf => Ok a buf.

Definition throw {A : Type} (e : exception) : reader A := fun buf => Throw e buf.

Notation "'let*' x ':=' m 'in' k" := (bind m (fun x => k))
  (at level 10, x name, m at level 100, k at level 200).

Definition is_Throw {A : Type} (r : result A) : bool :=
  match r with Throw _ _ => true | _ => false end.

(** [buf.read(s, n)]: nothing is extracted from a stream that is not good; a
    good stream gives [n] bytes when it has them, and otherwise gives what it
    has and is left failed (failbit and eofbit). *)
Definition istream_read (n : nat) (buf : istream) : list byte * istream :=
  if good buf then
    if (n <=? length (unread buf))%nat
    then (take n (unread buf), mk_istream (drop n (unread buf)) true)
    else (unread buf, mk_istream [] false)
  else ([], buf).

(** A good stream holding the bytes [l], for the examples. *)
Definition bytes_of (l : list Z) : list byte := map byte.of_Z l.

Definition stream (l : list Z) : istream := mk_istream (bytes_of l) true.

(** A statement about the host's byte order, made for both orders. *)
Definition both_hosts (P : bool -> Prop) : Prop := P true /\ P false.

(** ** enum class TagType : uint8_t

    The enumeration has a fixed underlying type, so a [TagType] can hold
    every [uint8_t] value; thirteen of them are named. *)
Definition TagType : Type := Z.

Abbreviation TAG_END := 0 (only parsing).
Abbreviation TAG_BYTE := 1 (only parsing).
Abbreviation TAG_SHORT := 2 (only parsing).
Abbreviation TAG_INT := 3 (only parsing).
Abbreviation TAG_LONG := 4 (only parsing).
Abbreviation TAG_FLOAT := 5 (only parsing).
Abbreviation TAG_DOUBLE := 6 (only parsing).
Abbreviation TAG_BYTE_ARRAY := 7 (only parsing).
Abbreviation TAG_STRING := 8 (only parsing).
Abbreviation TAG_LIST := 9 (only parsing).
Abbreviation TAG_COMPOUND := 10 (only parsing).
Abbreviation TAG_INT_ARRAY := 11 (only parsing).
Abbreviation TAG_LONG_ARRAY := 12 (only parsing).

(** The text made of one zero byte. *)
Definition nul : string := String Ascii.zero EmptyString.

(** [std::to_string(static_cast<int>(type))] *)
Definition to_string (i : Z) : string := NilZero.string_of_int (Z.to_int i).

(** ** Fixed-width types *)

Inductive ctype : Type :=
| uint8_t | int8_t | int16_t | uint16_t | int32_t | uint32_t | int64_t
| float | double.

Definition sizeof (T : ctype) : nat :=
  match T with
  | uint8_t | int8_t => 1
  | int16_t | uint16_t => 2
  | int32_t | uint32_t | float => 4
  | int64_t | double => 8
  end%nat.

Definition is_signed (T : ctype) : bool :=
  match T with
  | int8_t | int16_t | int32_t | int64_t => true
  | _ => false
  end.

Definition bits (T : ctype) : Z := 8 * Z.of_nat (sizeof T).

(** The values a variable of type [T] can hold. *)
Definition in_range (T : ctype) (v : Z) : Prop :=
  if is_signed T then - 2 ^ (bits T - 1) <= v < 2 ^ (bits T - 1)
  else 0 <= v < 2 ^ bits T.

(** Two's complement reading of an unsigned [bits T]-bit number. *)
Definition wrap (T : ctype) (u : Z) : Z :=
  if is_signed T && (2 ^ (bits T - 1) <=? u) then u - 2 ^ bits T else u.

(** ** namespace endian *)

(** [std::swap(u8[i], u8[j])] *)
Definition swap (i j : nat) (u8 : list byte) : list byte :=
  match u8 !! i, u8 !! j with
  | Some a, Some b => <[i := b]> (<[j := a]> u8)
  | _, _ => u8
  end.

(** [for (size_t k = 0; k * 2 < sz; ++k) std::swap(u8[k], u8[sz - k - 1]);]
    with [n] bounding the number of iterations. *)
Fixpoint swapEndian_loop (sz n k : nat) (u8 : list byte) : list byte :=
  match n with
  | O => u8
  | S n' =>
      if (k * 2 <? sz)%nat
      then swapEndian_loop sz n' (S k) (swap k (sz - k - 1) u8)
      else u8
  end.

Section Host.

(** [isHostLittleEndian()] is fixed by the compiler's [__BYTE_ORDER__]. *)
Variable isHostLittleEndian : bool.

(** The bytes of a [T] object holding [v], in address order, and back. *)
Definition object_bytes (T : ctype) (v : Z) : list byte :=
  let l := le_split (sizeof T) v in
  if isHostLittleEndian then l else rev l.

Definition object_value (T : ctype) (u8 : list byte) : Z :=
  wrap T (le_combine (if isHostLittleEndian then u8 else rev u8)).

Definition swapEndian (T : ctype) (u : Z) : Z :=
  match T with
  | uint8_t => u
  | _ =>
      let sz := sizeof T in
      object_value T (swapEndian_loop sz sz 0 (object_bytes T u))
  end.

Definition refineBigEndian (T : ctype) (u : Z) : Z :=
  if isHostLittleEndian then swapEndian T u else u.

(** ** readStream *)

(** [T tmp; buf.read(reinterpret_cast<char *>(&tmp), sizeof(tmp));
    return endian::refineBigEndian<T>(tmp);]
    When the stream gives fewer than [sizeof(T)] bytes, [tmp] is not fully
    written and its value is indeterminate. *)
Definition readStream (T : ctype) : reader Z :=
  fun buf =>
    let '(got, buf') := istream_read (sizeof T) buf in
    if (length got =? sizeof T)%nat
    then Ok (refineBigEndian T (object_value T got)) buf'
    else Undefined.

(** [readStream<std::string>]: the vector [tmp] has [len + 1] zero bytes, the
    stream overwrites the first ones, and the string is built from the whole
    vector. *)
Definition readStream_string : reader string :=
  let* len := readStream uint16_t in
  fun buf =>
    let '(got, buf') := istream_read (Z.to_nat len) buf in
    let tmp := got ++ replicate (Z.to_nat (len + 1) - length got) x00 in
    Ok (string_of_list_byte tmp) buf'.

(** [static_cast<TagType>(readStream<uint8_t>(buf))] *)
Definition readStream_TagType : reader TagType := readStream uint8_t.

(** ** The Tag classes

    One constructor per class; [TagSingle] and [TagArray] carry their
    template arguments, [TagString] is [TagSingle<std::string, TAG_STRING>].
    The first field of [Tag], [type_], is fixed by the class (see
    [getTagType]); [name_] is the [std::optional<std::string>]. *)
Inductive Tag : Type :=
| TagSingle (T : ctype) (ty : TagType) (name_ : option string) (val_ : Z)
| TagString (name_ : option string) (val_ : string)
| TagArray (T : ctype) (ty : TagType) (name_ : option string) (val_ : list Z)
| TagList (name_ : option string) (elemType_ : TagType) (val_ : list Tag)
| TagCompound (name_ : option string) (val_ : gmap string Tag).

Definition getTagType (t : Tag) : TagType :=
  match t with
  | TagSingle _ ty _ _ => ty
  | TagString _ _ => TAG_STRING
  | TagArray _ ty _ _ => ty
  | TagList _ _ _ => TAG_LIST
  | TagCompound _ _ => TAG_COMPOUND
  end.

Definition getName (t : Tag) : option string :=
  match t with
  | TagSingle _ _ name_ _ | TagString name_ _ | TagArray _ _ name_ _
  | TagList name_ _ _ | TagCompound name_ _ => name_
  end.

(** [TagSingle<T, ty>::TagSingle(name, buf)] runs [val_ = readStream<T>(buf)]. *)
Definition TagSingle_new (T : ctype) (ty : TagType) (name : option string)
  : reader Tag :=
  let* val_ := readStream T in
  ret (TagSingle T ty name val_).

Definition TagString_new (name : option string) : reader Tag :=
  let* val_ := readStream_string in
  ret (TagString name val_).

(** [for (auto &elem : val_) elem = readStream<T>(buf);] over [n] slots. *)
Fixpoint TagArray_loop (T : ctype) (n : nat) : reader (list Z) :=
  match n with
  | O => ret []
  | S n' =>
      let* elem := readStream T in
      let* rest := TagArray_loop T n' in
      ret (elem :: rest)
  end.

(** [TagArray<T, ty>::decode]: the length is read as a [uint32_t];
    [val_.resize(len)] is taken to succeed. *)
Definition TagArray_decode (T : ctype) : reader (list Z) :=
  let* len := readStream uint32_t in
  if len <=? 0 then ret []
  else TagArray_loop T (Z.to_nat len).

Definition TagArray_new (T : ctype) (ty : TagType) (name : option string)
  : reader Tag :=
  let* val_ := TagArray_decode T in
  ret (TagArray T ty name val_).

(** [for (int i = 0; i < length; ++i) val_[i] = makeTag(elemType_, buf);] *)
Fixpoint TagList_loop (mk : reader Tag) (n : nat) : reader (list Tag) :=
  match n with
  | O => ret []
  | S n' =>
      let* elem := mk in
      let* rest := TagList_loop mk n' in
      ret (elem :: rest)
  end.

(** [TagList::decode], with [mk] the dispatcher it calls back;
    [val_.resize(length)] is taken to succeed. *)
Definition TagList_decode (mk : TagType -> option string -> reader Tag)
  : reader (TagType * list Tag) :=
  let* elemType_ := readStream_TagType in
  let* length := readStream int32_t in
  if length <=? 0 then
    throw (runtime_error
             "TagList::decode: not implement for variant length list")
  else
    let* val_ := TagList_loop (mk elemType_ None) (Z.to_nat length) in
    ret (elemType_, val_).

Definition TagList_new (mk : TagType -> option string -> reader Tag)
    (name : option string) : reader Tag :=
  let* d := TagList_decode mk in
  ret (TagList name (fst d) (snd d)).

(** [std::unordered_map::insert]: a key that is present keeps its value. *)
Definition unordered_map_insert (k : string) (v : Tag) (m : gmap string Tag)
  : gmap string Tag :=
  match m !! k with
  | Some _ => m
  | None => <[k := v]> m
  end.

(** [TagCompound::decode].  Each turn of the [for] loop costs one unit of
    [fuel]; the child is built with the name that was just read and stored
    under that name. *)
Fixpoint TagCompound_decode (mk : TagType -> option string -> reader Tag)
    (fuel : nat) (val_ : gmap string Tag) : reader (gmap string Tag) :=
  match fuel with
  | O => fun _ => OutOfFuel
  | S fuel' =>
      let* type := readStream_TagType in
      if type =? TAG_END then ret val_
      else
        let* name := readStream_string in
        let* tag := mk type (Some name) in
        TagCompound_decode mk fuel' (unordered_map_insert name tag val_)
  end.

Definition TagCompound_new (mk : TagType -> option string -> reader Tag)
    (fuel : nat) (name : option string) : reader Tag :=
  let* val_ := TagCompound_decode mk fuel ∅ in
  ret (TagCompound name val_).

(** ** makeTag

    [name] is [None] for the call [makeTag(type, buf)] and [Some name] for
    [makeTag(type, name, buf)].  Fuel is consulted only where the constructor
    calls [makeTag] again. *)
Fixpoint makeTag (fuel : nat) (type : TagType) (name : option string)
  : reader Tag :=
  match type with
  | TAG_BYTE => TagSingle_new int8_t TAG_BYTE name
  | TAG_SHORT => TagSingle_new int16_t TAG_SHORT name
  | TAG_INT => TagSingle_new int32_t TAG_INT name
  | TAG_LONG => TagSingle_new int64_t TAG_LONG name
  | TAG_FLOAT => TagSingle_new float TAG_FLOAT name
  | TAG_DOUBLE => TagSingle_new double TAG_DOUBLE name
  | TAG_BYTE_ARRAY => TagArray_new int8_t TAG_BYTE_ARRAY name
  | TAG_STRING => TagString_new name
  | TAG_LIST =>
      match fuel with
      | O => fun _ => OutOfFuel
      | S fuel' => TagList_new (makeTag fuel') name
      end
  | TAG_COMPOUND =>
      match fuel with
      | O => fun _ => OutOfFuel
      | S fuel' => TagCompound_new (makeTag fuel') fuel name
      end
  | TAG_INT_ARRAY => TagArray_new int32_t TAG_INT_ARRAY name
  | TAG_LONG_ARRAY => TagArray_new int64_t TAG_LONG_ARRAY name
  | TAG_END =>
      throw (invalid_argument "makeTag: TagType shouldn't be TAG_END")
  | _ =>
      throw (runtime_error
               ("makeTag: TagType " ++ to_string type ++ " not found"))
  end.

(** ** readDocument *)
Definition readDocument : reader Tag :=
  let* tagType := readStream_TagType in
  if negb (tagType =? TAG_COMPOUND) then
    throw (runtime_error
             "readDocument: document should be a named compound")
  else
    let* name := readStream_string in
    fun buf => makeTag (S (length (unread buf))) tagType (Some name) buf.

(** ** Reference encoder and tree predicates (used by the statements) *)

(** What [sizeof T] wire bytes, most significant first, mean as a [T]. *)
Definition big_endian_value (T : ctype) (wire : list byte) : Z :=
  wrap T (le_combine (rev wire)).

(** The reference big-endian encoder: [n] bytes of [v], most significant
    first, two's complement for a negative [v]. *)
Fixpoint big_endian_encode (n : nat) (v : Z) : list byte :=
  match n with
  | O => []
  | S n' => byte.of_Z (v / 2 ^ (8 * Z.of_nat n')) :: big_endian_encode n' v
  end.

(** The reference encoder for text: a 16-bit length, then the bytes. *)
Definition text_encode (s : string) : list byte :=
  big_endian_encode 2 (Z.of_nat (String.length s)) ++ list_byte_of_string s.

(** Name placement at every depth: each child of a compound carries the name
    it is stored under, each element of a list carries none. *)
Inductive name_placement : Tag -> Prop :=
| placement_single T ty name_ val_ :
    name_placement (TagSingle T ty name_ val_)
| placement_string name_ val_ :
    name_placement (TagString name_ val_)
| placement_array T ty name_ val_ :
    name_placement (TagArray T ty name_ val_)
| placement_list name_ elemType_ val_ :
    Forall (fun t => getName t = None /\ name_placement t) val_ ->
    name_placement (TagList name_ elemType_ val_)
| placement_compound name_ val_ :
    map_Forall (fun k t => getName t = Some k /\ name_placement t) val_ ->
    name_placement (TagCompound name_ val_).

(** A document for the examples: a compound named "" holding a list "l" of
    one compound, which holds the byte "b" = 7; and the tree it decodes to. *)
Definition nested_document : list Z :=
  [10; 0; 0;
   9; 0; 1; 108;  10; 0; 0; 0; 1;
     1; 0; 1; 98; 7;
     0;
   0].

Definition nested_root : Tag :=
  TagCompound (Some nul)
    {[ ("l" ++ nul)%string :=
         TagList (Some ("l" ++ nul)%string) TAG_COMPOUND
           [TagCompound None
              {[ ("b" ++ nul)%string :=
                   TagSingle int8_t TAG_BYTE (Some ("b" ++ nul)%string) 7 ]}] ]}.

(** [TAGTYPE_TO_NAME]; [TAGTYPE_TO_NAME !! ty] is [TAGTYPE_TO_NAME.at(ty)],
    with [None] where [at] throws [std::out_of_range]. *)
Definition TAGTYPE_TO_NAME : gmap Z string :=
  list_to_map
    [(TAG_END, "TAG_END"); (TAG_BYTE, "TAG_BYTE"); (TAG_SHORT, "TAG_SHORT");
     (TAG_INT, "TAG_INT"); (TAG_LONG, "TAG_LONG"); (TAG_FLOAT, "TAG_FLOAT");
     (TAG_DOUBLE, "TAG_DOUBLE"); (TAG_BYTE_ARRAY, "TAG_BYTE_ARRAY");
     (TAG_STRING, "TAG_STRING"); (TAG_LIST, "TAG_LIST");
     (TAG_COMPOUND, "TAG_COMPOUND"); (TAG_INT_ARRAY, "TAG_INT_ARRAY");
     (TAG_LONG_ARRAY, "TAG_LONG_ARRAY")]%string.

(** The instances of the class templates that [nbt.hpp] names:
    [TagByte] ... [TagDouble], and [TagByteArray], [TagIntArray],
    [TagLongArray]. *)
Definition TagSingle_instance (T : ctype) (ty : TagType) : bool :=
  match T, ty with
  | int8_t, TAG_BYTE | int16_t, TAG_SHORT | int32_t, TAG_INT
  | int64_t, TAG_LONG | float, TAG_FLOAT | double, TAG_DOUBLE => true
  | _, _ => false
  end.

Definition TagArray_instance (T : ctype) (ty : TagType) : bool :=
  match T, ty with
  | int8_t, TAG_BYTE_ARRAY | int32_t, TAG_INT_ARRAY
  | int64_t, TAG_LONG_ARRAY => true
  | _, _ => false
  end.

(** A tree in which every node is an instance the header names, every number
    fits its type, and every list is non-empty with all its elements of the
    recorded element type. *)
Inductive well_formed : Tag -> Prop :=
| well_formed_single T ty name_ val_ :
    TagSingle_instance T ty = true -> in_range T val_ ->
    well_formed (TagSingle T ty name_ val_)
| well_formed_string name_ val_ :
    well_formed (TagString name_ val_)
| well_formed_array T ty name_ val_ :
    TagArray_instance T ty = true -> Forall (in_range T) val_ ->
    well_formed (TagArray T ty name_ val_)
| well_formed_list name_ elemType_ val_ :
    val_ <> [] ->
    Forall (fun t => getTagType t = elemType_ /\ well_formed t) val_ ->
    well_formed (TagList name_ elemType_ val_)
| well_formed_compound name_ val_ :
    map_Forall (fun _ t => well_formed t) val_ ->
    well_formed (TagCompound name_ val_).

(** The bytes a reader leaves are the end of the bytes it found. *)
Definition forward_only {A : Type} (m : reader A) : Prop :=
  forall buf a buf',
    m buf = Ok a buf' -> unread buf' `suffix_of` unread buf.

(** *** The wire format, as a reference for what "decoded" means

    A payload as the format lays it out: a number of one of the fixed-width
    types, a text, an array of numbers, a list of payloads of one type, or a
    compound, which is a sequence of keyed payloads.  [encode_payload] writes
    it byte for byte; [node_of] is the node it stands for. *)
Inductive wire : Type :=
| WSingle (T : ctype) (ty : TagType) (v : Z)
| WString (s : string)
| WArray (T : ctype) (ty : TagType) (vs : list Z)
| WList (elemType : TagType) (elems : list wire)
| WCompound (children : list (string * wire)).

Definition wire_type (w : wire) : TagType :=
  match w with
  | WSingle _ ty _ => ty
  | WString _ => TAG_STRING
  | WArray _ ty _ => ty
  | WList _ _ => TAG_LIST
  | WCompound _ => TAG_COMPOUND
  end.

(** Fixed-width payloads big-endian; a text as its 16-bit length and its
    bytes; an array as its 32-bit length and its elements; a list as its
    element type, its 32-bit length and its elements' payloads; a compound as
    its children, each with type byte, name and payload, then the END byte. *)
Fixpoint encode_payload (w : wire) : list byte :=
  match w with
  | WSingle T _ v => big_endian_encode (sizeof T) v
  | WString s => text_encode s
  | WArray T _ vs =>
      big_endian_encode 4 (Z.of_nat (length vs))
      ++ concat (map (big_endian_encode (sizeof T)) vs)
  | WList elemType elems =>
      big_endian_encode 1 elemType
      ++ big_endian_encode 4 (Z.of_nat (length elems))
      ++ concat (map encode_payload elems)
  | WCompound children =>
      concat (map (fun p => big_endian_encode 1 (wire_type p.2)
                            ++ text_encode p.1 ++ encode_payload p.2)
                children)
      ++ [x00]
  end.

(** A document: the COMPOUND id, the root's name, the root's payload. *)
Definition encode_document (name : string) (children : list (string * wire))
  : list byte :=
  big_endian_encode 1 TAG_COMPOUND ++ text_encode name
  ++ encode_payload (WCompound children).

(** The text [readStream<std::string>] returns for the wire text [s]. *)
Definition text_as_read (s : string) : string := (s ++ nul)%string.

(** The node a payload stands for: names and texts as the text reader
    returns them, the children of a compound stored one after the other with
    [std::unordered_map::insert]. *)
Fixpoint node_of (name : option string) (w : wire) : Tag :=
  match w with
  | WSingle T ty v => TagSingle T ty name v
  | WString s => TagString name (text_as_read s)
  | WArray T ty vs => TagArray T ty name vs
  | WList elemType elems => TagList name elemType (map (node_of None) elems)
  | WCompound children =>
      TagCompound name
        (foldl (fun m p =>
                  unordered_map_insert (text_as_read p.1)
                    (node_of (Some (text_as_read p.1)) p.2) m)
           ∅ children)
  end.

(** A payload the format allows, with at most [max_len] elements in each
    array and list: the class is one the header names, numbers fit their
    type, text lengths fit 16 bits, a list is non-empty and its elements have
    its element type. *)
Fixpoint wire_ok (max_len : Z) (w : wire) : Prop :=
  match w with
  | WSingle T ty v => TagSingle_instance T ty = true /\ in_range T v
  | WString s => in_range uint16_t (Z.of_nat (String.length s))
  | WArray T ty vs =>
      TagArray_instance T ty = true /\ Z.of_nat (length vs) <= max_len
      /\ Forall (in_range T) vs
  | WList elemType elems =>
      elems <> [] /\ Z.of_nat (length elems) <= max_len
      /\ foldr (fun e acc =>
                  (wire_type e = elemType /\ wire_ok max_len e) /\ acc)
           True elems
  | WCompound children =>
      foldr (fun p acc =>
               (in_range uint16_t (Z.of_nat (String.length p.1))
                /\ wire_ok max_len p.2) /\ acc)
        True children
  end.

(** The class of a node is the class [makeTag] builds for [type]. *)
Definition node_class (type : TagType) (name : option string) (t : Tag)
  : Prop :=
  match t with
  | TagSingle T ty name_ _ =>
      ty = type /\ name_ = name /\ TagSingle_instance T ty = true
  | TagString name_ _ => type = TAG_STRING /\ name_ = name
  | TagArray T ty name_ _ =>
      ty = type /\ name_ = name /\ TagArray_instance T ty = true
  | TagList name_ _ _ => type = TAG_LIST /\ name_ = name
  | TagCompound name_ _ => type = TAG_COMPOUND /\ name_ = name
  end.

(** A reader never gives bytes back; [consumes] readers take at least one. *)
Definition shrinks {A : Type} (m : reader A) : Prop :=
  forall buf a buf',
    m buf = Ok a buf' -> (length (unread buf') <= length (unread buf))%nat.

Definition consumes {A : Type} (m : reader A) : Prop :=
  forall buf a buf',
    m buf = Ok a buf' -> (length (unread buf') < length (unread buf))%nat.

(** [m] does not run out of fuel on a stream with fewer than [n] bytes. *)
Definition fuelled {A : Type} (n : nat) (m : reader A) : Prop :=
  forall buf, (length (unread buf) < n)%nat -> m buf <> OutOfFuel.


(** Two readers that give the same outcome on every stream. *)
Definition agree {A : Type} (m m' : reader A) : Prop :=
  forall buf, m buf = m' buf.

(** ** Induction on a payload *)

(** With the hypothesis for every element of a list and every child of a
    compound. *)
Lemma wire_induction (P : wire -> Prop) :
  (forall T ty v, P (WSingle T ty v)) ->
  (forall s, P (WString s)) ->
  (forall T ty vs, P (WArray T ty vs)) ->
  (forall elemType elems, Forall P elems -> P (WList elemType elems)) ->
  (forall children,
     Forall (fun p => P p.2) children -> P (WCompound children)) ->
  forall w, P w.
Proof.
  intros Hsingle Hstring Harray Hlist Hcompound.
  fix IH 1. intros [T ty v | s | T ty vs | elemType elems | children].
  - apply Hsingle.
  - apply Hstring.
  - apply Harray.
  - apply Hlist. induction elems as [| e elems IHl]; constructor;
      [apply IH | exact IHl].
  - apply Hcompound. induction children as [| [n c] children IHl];
      constructor; [apply IH | exact IHl].
Qed.

(** ** Facts about the stream *)

Lemma istream_read_enough (n : nat) (buf : istream) :
  good buf = true -> (n <= length (unread buf))%nat ->
  istream_read n buf
  = (take n (unread buf), mk_istream (drop n (unread buf)) true).
Proof.
  intros Hg Hn. unfold istream_read. rewrite Hg.
  destruct (Nat.leb_spec n (length (unread buf))); [done | lia].
Qed.

Lemma istream_read_short (n : nat) (buf : istream) :
  good buf = true -> (length (unread buf) < n)%nat ->
  istream_read n buf = (unread buf, mk_istream [] false).
Proof.
  intros Hg Hn. unfold istream_read. rewrite Hg.
  destruct (Nat.leb_spec n (length (unread buf))); [lia | done].
Qed.

Lemma istream_read_failed (n : nat) (buf : istream) :
  good buf = false -> istream_read n buf = ([], buf).
Proof. intros Hg. unfold istream_read. by rewrite Hg. Qed.

Lemma istream_read_unread (n : nat) (buf : istream) :
  (length (unread (istream_read n buf).2) <= length (unread buf))%nat.
Proof.
  unfold istream_read. destruct (good buf); [| done].
  destruct (Nat.leb_spec n (length (unread buf))); simpl.
  - rewrite length_drop. lia.
  - lia.
Qed.

(** ** Facts about the endian normalizer *)

Lemma swapEndian_loop_rev (T : ctype) (u8 : list byte) :
  length u8 = sizeof T ->
  swapEndian_loop (sizeof T) (sizeof T) 0 u8 = rev u8.
Proof.
  intros Hlen.
  assert (Hsz : sizeof T = 1%nat \/ sizeof T = 2%nat
                \/ sizeof T = 4%nat \/ sizeof T = 8%nat)
    by (destruct T; simpl; auto).
  destruct Hsz as [Hs | [Hs | [Hs | Hs]]]; rewrite Hs in *;
    repeat (destruct u8 as [| ? u8]; try discriminate Hlen);
    reflexivity.
Qed.

Lemma wrap_mod (T : ctype) (u : Z) :
  wrap T u mod 2 ^ (Z.of_nat (sizeof T) * 8) = u mod 2 ^ (Z.of_nat (sizeof T) * 8).
Proof.
  unfold wrap, bits.
  replace (8 * Z.of_nat (sizeof T)) with (Z.of_nat (sizeof T) * 8) by lia.
  destruct (is_signed T && _); [| done].
  rewrite <- Zminus_mod_idemp_r, Z_mod_same_full, Z.sub_0_r. done.
Qed.

Lemma le_split_wrap (T : ctype) (u : Z) :
  le_split (sizeof T) (wrap T u) = le_split (sizeof T) u.
Proof.
  rewrite (le_split_mod (wrap T u)), (le_split_mod u). by rewrite wrap_mod.
Qed.

(** The value that comes out of the normalizer is the big-endian reading of
    the bytes that were in the object, whatever the host's byte order. *)
Lemma refineBigEndian_object_value (T : ctype) (wire : list byte) :
  length wire = sizeof T ->
  refineBigEndian T (object_value T wire) = big_endian_value T wire.
Proof.
  intros Hlen. unfold refineBigEndian, big_endian_value.
  destruct isHostLittleEndian eqn:Hle.
  - assert (Hgen :
      object_value T
        (swapEndian_loop (sizeof T) (sizeof T) 0
           (object_bytes T (object_value T wire)))
      = wrap T (le_combine (rev wire))).
    { unfold object_bytes, object_value. rewrite Hle.
      rewrite le_split_wrap, split_le_combine' by done.
      by rewrite swapEndian_loop_rev. }
    destruct T; try exact Hgen.
    unfold swapEndian, object_value. rewrite Hle.
    destruct wire as [| b [| ? ?]]; try discriminate Hlen. done.
  - unfold object_value. by rewrite Hle.
Qed.

(** ** Facts about [readStream] *)

Lemma readStream_enough (T : ctype) (buf : istream) :
  good buf = true -> (sizeof T <= length (unread buf))%nat ->
  readStream T buf
  = Ok (big_endian_value T (take (sizeof T) (unread buf)))
       (mk_istream (drop (sizeof T) (unread buf)) true).
Proof.
  intros Hg Hn. unfold readStream. rewrite istream_read_enough by done.
  rewrite length_take, Nat.min_l, Nat.eqb_refl by done.
  rewrite refineBigEndian_object_value; [done |].
  rewrite length_take. lia.
Qed.

Lemma readStream_short (T : ctype) (buf : istream) :
  good buf = false \/ (length (unread buf) < sizeof T)%nat ->
  readStream T buf = Undefined.
Proof.
  intros H. unfold readStream.
  assert (Hpos : (0 < sizeof T)%nat) by (destruct T; simpl; lia).
  destruct (good buf) eqn:Hg.
  - destruct H as [H | H]; [done |].
    rewrite istream_read_short by done.
    destruct (Nat.eqb_spec (length (unread buf)) (sizeof T)); [lia | done].
  - rewrite istream_read_failed by done.
    destruct (sizeof T); [lia | done].
Qed.

Lemma readStream_Ok (T : ctype) (buf buf' : istream) (v : Z) :
  readStream T buf = Ok v buf' ->
  good buf = true /\ (sizeof T <= length (unread buf))%nat
  /\ v = big_endian_value T (take (sizeof T) (unread buf))
  /\ buf' = mk_istream (drop (sizeof T) (unread buf)) true.
Proof.
  intros H.
  destruct (good buf) eqn:Hg;
    [| rewrite readStream_short in H by auto; discriminate].
  destruct (Nat.le_gt_cases (sizeof T) (length (unread buf))) as [Hn | Hn];
    [| rewrite readStream_short in H by auto; discriminate].
  rewrite readStream_enough in H by done. by inversion H.
Qed.

Lemma readStream_cases (T : ctype) (buf : istream) :
  readStream T buf = Undefined
  \/ exists v buf', readStream T buf = Ok v buf'.
Proof.
  unfold readStream. destruct (istream_read (sizeof T) buf) as [got buf'].
  destruct (length got =? sizeof T)%nat; eauto.
Qed.

Lemma readStream_not_Throw (T : ctype) (buf : istream) :
  is_Throw (readStream T buf) = false.
Proof. by destruct (readStream_cases T buf) as [-> | (v & buf' & ->)]. Qed.

Lemma big_endian_value_unsigned (T : ctype) (wire : list byte) :
  is_signed T = false -> 0 <= big_endian_value T wire.
Proof.
  intros Hs. unfold big_endian_value, wrap. rewrite Hs. simpl.
  apply le_combine_bound.
Qed.

Lemma length_string_of_list_byte (l : list byte) :
  String.length (string_of_list_byte l) = length l.
Proof.
  induction l as [| b l IH]; [done |].
  change (S (String.length (string_of_list_byte l)) = S (length l)).
  by rewrite IH.
Qed.

(** The text read in full: the [L] wire bytes, and the last byte of [tmp],
    which no read overwrites. *)
Lemma readStream_string_enough (buf buf1 : istream) (L : Z) :
  readStream uint16_t buf = Ok L buf1 ->
  (Z.to_nat L <= length (unread buf1))%nat ->
  readStream_string buf
  = Ok (string_of_list_byte (take (Z.to_nat L) (unread buf1) ++ [x00]))
       (mk_istream (drop (Z.to_nat L) (unread buf1)) true).
Proof.
  intros Hlen Hn. unfold readStream_string, bind. rewrite Hlen.
  apply readStream_Ok in Hlen as (_ & _ & HL & ->). simpl in *.
  rewrite istream_read_enough by done. simpl.
  rewrite length_take, Nat.min_l by done.
  assert (0 <= L) by (subst L; by apply big_endian_value_unsigned).
  replace (Z.to_nat (L + 1) - Z.to_nat L)%nat with 1%nat by lia.
  done.
Qed.

(** The text read cut short: what the stream still had, then the zero bytes
    [tmp] was created with; the stream is left failed. *)
Lemma readStream_string_short (buf buf1 : istream) (L : Z) :
  readStream uint16_t buf = Ok L buf1 ->
  (length (unread buf1) < Z.to_nat L)%nat ->
  readStream_string buf
  = Ok (string_of_list_byte
          (unread buf1
           ++ replicate (Z.to_nat (L + 1) - length (unread buf1)) x00))
       (mk_istream [] false).
Proof.
  intros Hlen Hn. unfold readStream_string, bind. rewrite Hlen.
  apply readStream_Ok in Hlen as (_ & _ & HL & ->). simpl in *.
  by rewrite istream_read_short.
Qed.

Lemma readStream_string_Ok (buf buf' : istream) (s : string) :
  readStream_string buf = Ok s buf' ->
  exists L buf1,
    readStream uint16_t buf = Ok L buf1 /\ 0 <= L
    /\ String.length s = S (Z.to_nat L)
    /\ (length (unread buf') <= length (unread buf1))%nat.
Proof.
  intros H. unfold readStream_string, bind in H.
  destruct (readStream uint16_t buf) as [L buf1 | | |] eqn:Hlen;
    try discriminate.
  exists L, buf1.
  pose proof (istream_read_unread (Z.to_nat L) buf1) as Hle.
  destruct (istream_read (Z.to_nat L) buf1) as [got buf2] eqn:Hrd.
  inversion H; subst; clear H. simpl in Hle.
  assert (HL : 0 <= L).
  { apply readStream_Ok in Hlen as (_ & _ & -> & _).
    by apply big_endian_value_unsigned. }
  repeat split; try done.
  rewrite length_string_of_list_byte, length_app, length_replicate.
  assert (length got <= Z.to_nat L)%nat; [| lia].
  unfold istream_read in Hrd. destruct (good buf1).
  - destruct (Nat.leb_spec (Z.to_nat L) (length (unread buf1)));
      inversion Hrd; subst; [rewrite length_take |]; lia.
  - inversion Hrd; subst; simpl; lia.
Qed.

Lemma readStream_string_not_Throw (buf : istream) :
  is_Throw (readStream_string buf) = false.
Proof.
  unfold readStream_string, bind.
  destruct (readStream_cases uint16_t buf) as [-> | (v & buf' & ->)];
    [done |].
  by destruct (istream_read (Z.to_nat v) buf').
Qed.

(** ** Every reader moves forward *)

Lemma bind_Ok {A B : Type} (m : reader A) (k : A -> reader B)
    (buf buf' : istream) (b : B) :
  bind m k buf = Ok b buf' ->
  exists a buf1, m buf = Ok a buf1 /\ k a buf1 = Ok b buf'.
Proof.
  unfold bind. destruct (m buf) as [a buf1 | | |]; try discriminate. eauto.
Qed.

Lemma consumes_shrinks {A : Type} (m : reader A) : consumes m -> shrinks m.
Proof. intros H buf a buf' Hm. apply H in Hm. lia. Qed.

Lemma ret_shrinks {A : Type} (a : A) : shrinks (ret a).
Proof. intros buf a' buf' H. inversion H; subst. lia. Qed.

Lemma bind_shrinks {A B : Type} (m : reader A) (k : A -> reader B) :
  shrinks m -> (forall a, shrinks (k a)) -> shrinks (bind m k).
Proof.
  intros Hm Hk buf b buf' H.
  apply bind_Ok in H as (a & buf1 & H1 & H2).
  apply Hm in H1. apply Hk in H2. lia.
Qed.

Lemma bind_consumes {A B : Type} (m : reader A) (k : A -> reader B) :
  consumes m -> (forall a, shrinks (k a)) -> consumes (bind m k).
Proof.
  intros Hm Hk buf b buf' H.
  apply bind_Ok in H as (a & buf1 & H1 & H2).
  apply Hm in H1. apply Hk in H2. lia.
Qed.

Lemma readStream_consumes (T : ctype) : consumes (readStream T).
Proof.
  intros buf v buf' H. apply readStream_Ok in H as (_ & Hn & _ & ->).
  simpl. rewrite length_drop.
  assert (0 < sizeof T)%nat by (destruct T; simpl; lia). lia.
Qed.

Lemma readStream_string_consumes : consumes readStream_string.
Proof.
  intros buf s buf' H.
  apply readStream_string_Ok in H as (L & buf1 & H1 & _ & _ & Hle).
  apply readStream_consumes in H1. lia.
Qed.

Lemma TagArray_loop_shrinks (T : ctype) (n : nat) :
  shrinks (TagArray_loop T n).
Proof.
  induction n as [| n IH]; simpl; [apply ret_shrinks |].
  apply bind_shrinks; [apply consumes_shrinks, readStream_consumes |].
  intros elem. apply bind_shrinks; [done |]. intros rest. apply ret_shrinks.
Qed.

Lemma TagArray_decode_consumes (T : ctype) : consumes (TagArray_decode T).
Proof.
  apply bind_consumes; [apply readStream_consumes |].
  intros len. destruct (len <=? 0);
    [apply ret_shrinks | apply TagArray_loop_shrinks].
Qed.

Lemma TagList_loop_shrinks (mk : reader Tag) (n : nat) :
  shrinks mk -> shrinks (TagList_loop mk n).
Proof.
  intros Hmk. induction n as [| n IH]; simpl; [apply ret_shrinks |].
  apply bind_shrinks; [done |].
  intros elem. apply bind_shrinks; [done |]. intros rest. apply ret_shrinks.
Qed.

Lemma TagList_decode_consumes (mk : TagType -> option string -> reader Tag) :
  (forall type name, shrinks (mk type name)) -> consumes (TagList_decode mk).
Proof.
  intros Hmk. apply bind_consumes; [apply readStream_consumes |].
  intros elemType_.
  apply bind_shrinks; [apply consumes_shrinks, readStream_consumes |].
  intros len. destruct (len <=? 0); [intros buf a buf' H; discriminate |].
  apply bind_shrinks; [by apply TagList_loop_shrinks |].
  intros val_. apply ret_shrinks.
Qed.

Lemma TagCompound_decode_consumes
    (mk : TagType -> option string -> reader Tag) (fuel : nat)
    (val_ : gmap string Tag) :
  (forall type name, shrinks (mk type name)) ->
  consumes (TagCompound_decode mk fuel val_).
Proof.
  intros Hmk. revert val_.
  induction fuel as [| fuel IH]; intros val_; simpl;
    [intros buf a buf' H; discriminate |].
  apply bind_consumes; [apply readStream_consumes |].
  intros type. destruct (type =? 0); [apply ret_shrinks |].
  apply bind_shrinks; [apply consumes_shrinks, readStream_string_consumes |].
  intros name. apply bind_shrinks; [done |].
  intros tag. apply consumes_shrinks, IH.
Qed.

(** ** Case analysis on the tag type *)

Lemma TagType_cases (type : TagType) :
  type = TAG_END \/ type = TAG_BYTE \/ type = TAG_SHORT \/ type = TAG_INT
  \/ type = TAG_LONG \/ type = TAG_FLOAT \/ type = TAG_DOUBLE
  \/ type = TAG_BYTE_ARRAY \/ type = TAG_STRING \/ type = TAG_LIST
  \/ type = TAG_COMPOUND \/ type = TAG_INT_ARRAY \/ type = TAG_LONG_ARRAY
  \/ ~ (0 <= type <= 12).
Proof. unfold TagType in *. lia. Qed.

Ltac type_cases type :=
  let H := fresh "Htype" in
  pose proof (TagType_cases type) as H;
  repeat (destruct H as [-> | H]).

Lemma makeTag_list (fuel : nat) (name : option string) :
  makeTag (S fuel) TAG_LIST name = TagList_new (makeTag fuel) name.
Proof. reflexivity. Qed.

Lemma makeTag_compound (fuel : nat) (name : option string) :
  makeTag (S fuel) TAG_COMPOUND name
  = TagCompound_new (makeTag fuel) (S fuel) name.
Proof. reflexivity. Qed.

Lemma makeTag_unknown (fuel : nat) (type : TagType) (name : option string) :
  ~ (0 <= type <= 12) ->
  makeTag fuel type name
  = throw (runtime_error
             ("makeTag: TagType " ++ to_string type ++ " not found")).
Proof.
  intros H. destruct fuel;
    (destruct type as [| p | p]; [lia | | reflexivity];
     do 4 (destruct p as [p | p |]; try lia; try reflexivity)).
Qed.

(** ** The dispatcher moves forward *)

Lemma TagSingle_new_consumes (T : ctype) (ty : TagType) (name : option string) :
  consumes (TagSingle_new T ty name).
Proof.
  apply bind_consumes; [apply readStream_consumes |].
  intros v. apply ret_shrinks.
Qed.

Lemma TagString_new_consumes (name : option string) :
  consumes (TagString_new name).
Proof.
  apply bind_consumes; [apply readStream_string_consumes |].
  intros v. apply ret_shrinks.
Qed.

Lemma TagArray_new_consumes (T : ctype) (ty : TagType) (name : option string) :
  consumes (TagArray_new T ty name).
Proof.
  apply bind_consumes; [apply TagArray_decode_consumes |].
  intros v. apply ret_shrinks.
Qed.

Lemma makeTag_consumes (fuel : nat) (type : TagType) (name : option string) :
  consumes (makeTag fuel type name).
Proof.
  revert type name. induction fuel as [| fuel IH]; intros type name;
    type_cases type;
    try apply TagSingle_new_consumes; try apply TagString_new_consumes;
    try apply TagArray_new_consumes;
    try (intros buf a buf' H; discriminate H);
    try (rewrite makeTag_unknown by done; intros buf a buf' H; discriminate H).
  - rewrite makeTag_list. apply bind_consumes.
    + apply TagList_decode_consumes. intros ty nm.
      apply consumes_shrinks, IH.
    + intros d. apply ret_shrinks.
  - rewrite makeTag_compound. apply bind_consumes.
    + apply TagCompound_decode_consumes. intros ty nm.
      apply consumes_shrinks, IH.
    + intros d. apply ret_shrinks.
Qed.

(** ** Fuel: one unit more than the unread bytes is enough *)

Lemma fuelled_always {A : Type} (n : nat) (m : reader A) :
  (forall buf, m buf <> OutOfFuel) -> fuelled n m.
Proof. intros H buf _. apply H. Qed.

Lemma bind_fuelled {A B : Type} (n : nat) (m : reader A) (k : A -> reader B) :
  fuelled n m -> shrinks m -> (forall a, fuelled n (k a)) ->
  fuelled n (bind m k).
Proof.
  intros Hm Hs Hk buf Hlt. unfold bind.
  destruct (m buf) as [a buf1 | | |] eqn:E; try done.
  - apply Hk. apply Hs in E. lia.
  - by apply Hm in E.
Qed.

Lemma bind_fuelled_S {A B : Type} (n : nat) (m : reader A)
    (k : A -> reader B) :
  (forall buf, m buf <> OutOfFuel) -> consumes m ->
  (forall a, fuelled n (k a)) ->
  fuelled (S n) (bind m k).
Proof.
  intros Hm Hc Hk buf Hlt. unfold bind.
  destruct (m buf) as [a buf1 | | |] eqn:E; try done.
  - apply Hk. apply Hc in E. lia.
  - by apply Hm in E.
Qed.

Lemma readStream_fuelled (n : nat) (T : ctype) : fuelled n (readStream T).
Proof.
  apply fuelled_always. intros buf.
  by destruct (readStream_cases T buf) as [-> | (v & buf' & ->)].
Qed.

Lemma readStream_string_fuelled (n : nat) : fuelled n readStream_string.
Proof.
  apply bind_fuelled;
    [apply readStream_fuelled | apply consumes_shrinks, readStream_consumes |].
  intros len. apply fuelled_always. intros buf.
  by destruct (istream_read (Z.to_nat len) buf).
Qed.

Lemma ret_fuelled {A : Type} (n : nat) (a : A) : fuelled n (ret a).
Proof. by apply fuelled_always. Qed.

Lemma throw_fuelled {A : Type} (n : nat) (e : exception) :
  fuelled n (throw (A := A) e).
Proof. by apply fuelled_always. Qed.

Lemma TagArray_loop_fuelled (n : nat) (T : ctype) (k : nat) :
  fuelled n (TagArray_loop T k).
Proof.
  induction k as [| k IH]; simpl; [apply ret_fuelled |].
  apply bind_fuelled;
    [apply readStream_fuelled | apply consumes_shrinks, readStream_consumes |].
  intros elem.
  apply bind_fuelled; [done | apply TagArray_loop_shrinks |].
  intros rest. apply ret_fuelled.
Qed.

Lemma TagArray_new_fuelled (n : nat) (T : ctype) (ty : TagType)
    (name : option string) :
  fuelled n (TagArray_new T ty name).
Proof.
  apply bind_fuelled;
    [| apply consumes_shrinks, TagArray_decode_consumes
     | intros v; apply ret_fuelled].
  apply bind_fuelled;
    [apply readStream_fuelled | apply consumes_shrinks, readStream_consumes |].
  intros len. destruct (len <=? 0);
    [apply ret_fuelled | apply TagArray_loop_fuelled].
Qed.

Lemma TagSingle_new_fuelled (n : nat) (T : ctype) (ty : TagType)
    (name : option string) :
  fuelled n (TagSingle_new T ty name).
Proof.
  apply bind_fuelled;
    [apply readStream_fuelled | apply consumes_shrinks, readStream_consumes |].
  intros v. apply ret_fuelled.
Qed.

Lemma TagString_new_fuelled (n : nat) (name : option string) :
  fuelled n (TagString_new name).
Proof.
  apply bind_fuelled;
    [apply readStream_string_fuelled
    | apply consumes_shrinks, readStream_string_consumes |].
  intros v. apply ret_fuelled.
Qed.

Lemma TagList_loop_fuelled (n : nat) (mk : reader Tag) (k : nat) :
  fuelled n mk -> shrinks mk -> fuelled n (TagList_loop mk k).
Proof.
  intros Hf Hs. induction k as [| k IH]; simpl; [apply ret_fuelled |].
  apply bind_fuelled; [done | done |].
  intros elem.
  apply bind_fuelled; [done | by apply TagList_loop_shrinks |].
  intros rest. apply ret_fuelled.
Qed.

Lemma TagList_new_fuelled (n : nat)
    (mk : TagType -> option string -> reader Tag) (name : option string) :
  (forall type nm, fuelled n (mk type nm)) ->
  (forall type nm, shrinks (mk type nm)) ->
  fuelled (S n) (TagList_new mk name).
Proof.
  intros Hf Hs.
  apply bind_fuelled;
    [| by apply consumes_shrinks, TagList_decode_consumes
     | intros v; apply ret_fuelled].
  apply bind_fuelled_S; [| apply readStream_consumes |].
  { intros buf.
    by destruct (readStream_cases uint8_t buf) as [H | (? & ? & H)];
      unfold readStream_TagType; rewrite H. }
  intros elemType_.
  apply bind_fuelled;
    [apply readStream_fuelled | apply consumes_shrinks, readStream_consumes |].
  intros len. destruct (len <=? 0); [apply throw_fuelled |].
  apply bind_fuelled;
    [by apply TagList_loop_fuelled | by apply TagList_loop_shrinks |].
  intros val_. apply ret_fuelled.
Qed.

Lemma TagCompound_decode_fuelled (n : nat)
    (mk : TagType -> option string -> reader Tag) (fuel : nat)
    (val_ : gmap string Tag) (buf : istream) :
  (forall type nm, fuelled n (mk type nm)) ->
  (forall type nm, shrinks (mk type nm)) ->
  (length (unread buf) < fuel)%nat -> (length (unread buf) <= n)%nat ->
  TagCompound_decode mk fuel val_ buf <> OutOfFuel.
Proof.
  intros Hf Hs. revert val_ buf.
  induction fuel as [| fuel IH]; intros val_ buf Hlt Hle; [lia |].
  simpl. unfold bind.
  destruct (readStream_TagType buf) as [type buf1 | | |] eqn:E1; try done;
    [| by destruct (readStream_cases uint8_t buf) as [H | (? & ? & H)];
         unfold readStream_TagType in E1; rewrite H in E1].
  apply readStream_consumes in E1.
  destruct (type =? 0); [done |].
  destruct (readStream_string buf1) as [name buf2 | | |] eqn:E2; try done;
    [| by apply (readStream_string_fuelled (S (length (unread buf1)))) in E2;
         [| lia]].
  apply readStream_string_consumes in E2.
  destruct (mk type (Some name) buf2) as [tag buf3 | | |] eqn:E3; try done.
  - apply Hs in E3. apply IH; lia.
  - apply Hf in E3; [done | lia].
Qed.

Lemma makeTag_fuelled (fuel : nat) (type : TagType) (name : option string) :
  fuelled fuel (makeTag fuel type name).
Proof.
  revert type name. induction fuel as [| fuel IH]; intros type name;
    [intros buf Hlt; lia |].
  type_cases type;
    try apply TagSingle_new_fuelled; try apply TagString_new_fuelled;
    try apply TagArray_new_fuelled; try apply throw_fuelled;
    try (rewrite makeTag_unknown by done; apply throw_fuelled).
  - rewrite makeTag_list. intros buf Hlt.
    apply (TagList_new_fuelled fuel); [| | done].
    + apply IH.
    + intros ty nm. apply consumes_shrinks, makeTag_consumes.
  - rewrite makeTag_compound. intros buf Hlt. unfold TagCompound_new, bind.
    destruct (TagCompound_decode (makeTag fuel) (S fuel) ∅ buf) eqn:E; try done.
    apply TagCompound_decode_fuelled with (n := fuel) in E; [done | | | lia | lia].
    + apply IH.
    + intros ty nm. apply consumes_shrinks, makeTag_consumes.
Qed.

(** The fuel [readDocument] starts with is enough. *)
Lemma length_lt_fuel (type : TagType) (name : option string) (buf : istream) :
  makeTag (S (length (unread buf))) type name buf <> OutOfFuel.
Proof. apply makeTag_fuelled. lia. Qed.

(** ** More fuel changes nothing *)








Lemma readDocument_fuelled (buf : istream) : readDocument buf <> OutOfFuel.
Proof.
  unfold readDocument, bind.
  destruct (readStream_cases uint8_t buf) as [H | (type & buf1 & H)];
    unfold readStream_TagType; rewrite H; [done |].
  destruct (negb (type =? 10)); [done |].
  destruct (readStream_string buf1) as [name buf2 | | |] eqn:E; try done.
  - apply length_lt_fuel.
  - by apply (readStream_string_fuelled (S (length (unread buf1)))) in E;
      [| lia].
Qed.

(** ** The reference encoder and [readStream] *)

Lemma le_split_snoc (n : nat) (v : Z) :
  le_split (S n) v = le_split n v ++ [byte.of_Z (v / 2 ^ (8 * Z.of_nat n))].
Proof.
  revert v. induction n as [| n IH]; intros v.
  - simpl. by rewrite Z.div_1_r.
  - change (le_split (S (S n)) v)
      with (byte.of_Z v :: le_split (S n) (Z.shiftr v 8)).
    rewrite IH. change (le_split (S n) v)
      with (byte.of_Z v :: le_split n (Z.shiftr v 8)).
    simpl app. do 3 f_equal.
    rewrite Z.shiftr_div_pow2 by lia.
    rewrite Z.div_div
      by (try apply Z.pow_nonzero; try apply Z.pow_pos_nonneg; lia).
    rewrite <- Z.pow_add_r by lia. do 3 f_equal. lia.
Qed.

Lemma big_endian_encode_rev (n : nat) (v : Z) :
  big_endian_encode n v = rev (le_split n v).
Proof.
  induction n as [| n IH]; [done |].
  rewrite le_split_snoc, rev_app_distr. simpl. by rewrite IH.
Qed.

Lemma length_big_endian_encode (n : nat) (v : Z) :
  length (big_endian_encode n v) = n.
Proof. by rewrite big_endian_encode_rev, length_rev, length_le_split. Qed.

Lemma wrap_in_range (T : ctype) (v : Z) :
  in_range T v -> wrap T (v mod 2 ^ (Z.of_nat (sizeof T) * 8)) = v.
Proof.
  unfold in_range, wrap, bits.
  destruct T; cbv [sizeof is_signed andb]; intros H;
    repeat match goal with
      | H : context [2 ^ ?e] |- _ =>
          let x := eval vm_compute in (2 ^ e) in change (2 ^ e) with x in H
      | |- context [2 ^ ?e] =>
          let x := eval vm_compute in (2 ^ e) in change (2 ^ e) with x
      end;
    try (rewrite Z.mod_small by lia; done);
    match goal with
    | |- context [(?a <=? ?b)] => destruct (Z.leb_spec a b)
    end; Z.to_euclidean_division_equations; lia.
Qed.

Lemma big_endian_value_encode (T : ctype) (v : Z) :
  in_range T v -> big_endian_value T (big_endian_encode (sizeof T) v) = v.
Proof.
  intros H. unfold big_endian_value.
  rewrite big_endian_encode_rev, rev_involutive, le_combine_split.
  by apply wrap_in_range.
Qed.

(** Decoding what the reference encoder wrote for a number gives the number
    back, for each of the fixed-width types and on either kind of host. *)
Lemma readStream_big_endian_encode (T : ctype) (v : Z) (rest : list byte) :
  in_range T v ->
  readStream T (mk_istream (big_endian_encode (sizeof T) v ++ rest) true)
  = Ok v (mk_istream rest true).
Proof.
  intros H.
  pose proof (length_big_endian_encode (sizeof T) v) as Hlen.
  rewrite readStream_enough; simpl; [| done | rewrite length_app; lia].
  rewrite take_app_length', drop_app_length' by done.
  by rewrite big_endian_value_encode.
Qed.

(** Decoding what the reference encoder wrote for a text gives the text and
    one more byte. *)
Lemma readStream_string_text_encode (s : string) (rest : list byte) :
  in_range uint16_t (Z.of_nat (String.length s)) ->
  readStream_string (mk_istream (text_encode s ++ rest) true)
  = Ok (s ++ nul)%string (mk_istream rest true).
Proof.
  intros Hs. unfold text_encode. rewrite <- app_assoc.
  assert (Hlen : length (list_byte_of_string s) = String.length s).
  { by rewrite <- length_string_of_list_byte, string_of_list_byte_of_string. }
  erewrite readStream_string_enough;
    [| by apply (readStream_big_endian_encode uint16_t)
     | simpl; rewrite length_app; lia].
  simpl unread. rewrite Nat2Z.id, <- Hlen.
  rewrite take_app_length, drop_app_length. f_equal.
  rewrite <- (string_of_list_byte_of_string s) at 2.
  generalize (list_byte_of_string s). intros l.
  induction l as [| b l IH]; [done |].
  change (string_of_list_byte ((b :: l) ++ [x00]))
    with (String (Ascii.ascii_of_byte b) (string_of_list_byte (l ++ [x00]))).
  by rewrite IH.
Qed.

(** ** The node a constructor returns *)

Lemma TagSingle_new_Ok (T : ctype) (ty : TagType) (name : option string)
    (buf buf' : istream) (t : Tag) :
  TagSingle_new T ty name buf = Ok t buf' ->
  exists v, t = TagSingle T ty name v.
Proof.
  intros H. apply bind_Ok in H as (v & buf1 & _ & H).
  inversion H. eauto.
Qed.

Lemma TagString_new_Ok (name : option string) (buf buf' : istream) (t : Tag) :
  TagString_new name buf = Ok t buf' -> exists v, t = TagString name v.
Proof.
  intros H. apply bind_Ok in H as (v & buf1 & _ & H).
  inversion H. eauto.
Qed.

Lemma TagArray_new_Ok (T : ctype) (ty : TagType) (name : option string)
    (buf buf' : istream) (t : Tag) :
  TagArray_new T ty name buf = Ok t buf' ->
  exists v, t = TagArray T ty name v.
Proof.
  intros H. apply bind_Ok in H as (v & buf1 & _ & H).
  inversion H. eauto.
Qed.

Lemma TagList_new_Ok (mk : TagType -> option string -> reader Tag)
    (name : option string) (buf buf' : istream) (t : Tag) :
  TagList_new mk name buf = Ok t buf' ->
  exists elemType_ val_ buf1 n,
    t = TagList name elemType_ val_
    /\ TagList_loop (mk elemType_ None) n buf1 = Ok val_ buf'.
Proof.
  intros H. apply bind_Ok in H as (d & buf1 & Hd & H).
  inversion H; subst; clear H.
  apply bind_Ok in Hd as (elemType_ & buf2 & _ & Hd).
  apply bind_Ok in Hd as (len & buf3 & _ & Hd).
  destruct (len <=? 0); [discriminate |].
  apply bind_Ok in Hd as (val_ & buf4 & Hloop & Hd).
  inversion Hd; subst; clear Hd. simpl. eauto 10.
Qed.

Lemma TagCompound_new_Ok (mk : TagType -> option string -> reader Tag)
    (fuel : nat) (name : option string) (buf buf' : istream) (t : Tag) :
  TagCompound_new mk fuel name buf = Ok t buf' ->
  exists val_,
    t = TagCompound name val_
    /\ TagCompound_decode mk fuel ∅ buf = Ok val_ buf'.
Proof.
  intros H. apply bind_Ok in H as (val_ & buf1 & Hd & H).
  inversion H; subst. eauto.
Qed.

(** Whatever [makeTag] returns has the requested type and the given name. *)
Lemma makeTag_Ok (fuel : nat) (type : TagType) (name : option string)
    (buf buf' : istream) (t : Tag) :
  makeTag fuel type name buf = Ok t buf' ->
  getTagType t = type /\ getName t = name.
Proof.
  intros H. destruct fuel; type_cases type;
    try rewrite makeTag_unknown in H by done; try discriminate H;
    try (apply TagSingle_new_Ok in H as (v & ->); done);
    try (apply TagString_new_Ok in H as (v & ->); done);
    try (apply TagArray_new_Ok in H as (v & ->); done).
  - apply TagList_new_Ok in H as (e & v & b & n & -> & _). done.
  - apply TagCompound_new_Ok in H as (v & -> & _). done.
Qed.

(** For each constructible type there is a stream on which [makeTag] returns. *)
Lemma makeTag_returns (type : TagType) (name : option string) :
  1 <= type <= 12 ->
  exists buf t buf', makeTag 1 type name buf = Ok t buf'.
Proof.
  intros H.
  destruct (Z.eq_dec type TAG_LIST) as [-> | Hl].
  - exists (mk_istream [x01; x00; x00; x00; x01; x00] true).
    destruct isHostLittleEndian eqn:E; do 2 eexists;
      unfold makeTag, TagList_new, TagList_decode, bind, readStream_TagType;
      rewrite !readStream_enough by (simpl; lia); reflexivity.
  - exists (mk_istream (replicate 8 x00) true).
    type_cases type; try lia; do 2 eexists;
      unfold makeTag, TagSingle_new, TagString_new, TagArray_new,
        TagArray_decode, TagCompound_new, TagCompound_decode,
        readStream_string, readStream_TagType, bind;
      rewrite !readStream_enough by (simpl; lia); reflexivity.
Qed.

(** ** What the two container loops build *)

Lemma TagList_loop_Forall (P : Tag -> Prop) (mk : reader Tag) (n : nat)
    (buf buf' : istream) (val_ : list Tag) :
  (forall b t b', mk b = Ok t b' -> P t) ->
  TagList_loop mk n buf = Ok val_ buf' ->
  Forall P val_ /\ length val_ = n.
Proof.
  intros Hmk. revert buf val_.
  induction n as [| n IH]; intros buf val_ H; simpl in H.
  - inversion H. by split.
  - apply bind_Ok in H as (elem & buf1 & H1 & H).
    apply bind_Ok in H as (rest & buf2 & H2 & H).
    inversion H; subst; clear H.
    apply IH in H2 as [HF Hlen]. split; [| simpl; lia].
    constructor; [by eapply Hmk | done].
Qed.

Lemma unordered_map_insert_Forall (P : string -> Tag -> Prop) (k : string)
    (v : Tag) (m : gmap string Tag) :
  map_Forall P m -> P k v -> map_Forall P (unordered_map_insert k v m).
Proof.
  intros Hm Hv. unfold unordered_map_insert.
  destruct (m !! k) eqn:E; [done |]. by apply map_Forall_insert_2.
Qed.

Lemma unordered_map_insert_keeps (k k' : string) (v x : Tag)
    (m : gmap string Tag) :
  m !! k' = Some x -> unordered_map_insert k v m !! k' = Some x.
Proof.
  intros H. unfold unordered_map_insert.
  destruct (m !! k) eqn:E; [done |].
  rewrite lookup_insert_ne; [done | congruence].
Qed.

Lemma TagCompound_decode_Forall (P : string -> Tag -> Prop)
    (mk : TagType -> option string -> reader Tag) (fuel : nat)
    (val_ val' : gmap string Tag) (buf buf' : istream) :
  (forall type name b t b', mk type (Some name) b = Ok t b' -> P name t) ->
  map_Forall P val_ ->
  TagCompound_decode mk fuel val_ buf = Ok val' buf' ->
  map_Forall P val'.
Proof.
  intros Hmk. revert val_ buf.
  induction fuel as [| fuel IH]; intros val_ buf Hval H; [discriminate |].
  simpl in H. apply bind_Ok in H as (type & buf1 & _ & H).
  destruct (type =? 0); [by inversion H; subst |].
  apply bind_Ok in H as (name & buf2 & _ & H).
  apply bind_Ok in H as (tag & buf3 & Htag & H).
  eapply IH; [| exact H].
  apply unordered_map_insert_Forall; [done | by eapply Hmk].
Qed.

(** An entry of the map is never replaced by the rest of the loop. *)
Lemma TagCompound_decode_keeps
    (mk : TagType -> option string -> reader Tag) (fuel : nat)
    (val_ val' : gmap string Tag) (buf buf' : istream) (k : string) (x : Tag) :
  val_ !! k = Some x ->
  TagCompound_decode mk fuel val_ buf = Ok val' buf' ->
  val' !! k = Some x.
Proof.
  revert val_ buf.
  induction fuel as [| fuel IH]; intros val_ buf Hk H; [discriminate |].
  simpl in H. apply bind_Ok in H as (type & buf1 & _ & H).
  destruct (type =? 0); [by inversion H; subst |].
  apply bind_Ok in H as (name & buf2 & _ & H).
  apply bind_Ok in H as (tag & buf3 & Htag & H).
  eapply IH; [| exact H]. by apply unordered_map_insert_keeps.
Qed.

Lemma makeTag_name_placement (fuel : nat) (type : TagType)
    (name : option string) (buf buf' : istream) (t : Tag) :
  makeTag fuel type name buf = Ok t buf' -> name_placement t.
Proof.
  revert type name buf buf' t.
  induction fuel as [| fuel IH]; intros type name buf buf' t H;
    type_cases type;
    try rewrite makeTag_unknown in H by done; try discriminate H;
    try (apply TagSingle_new_Ok in H as (v & ->); constructor);
    try (apply TagString_new_Ok in H as (v & ->); constructor);
    try (apply TagArray_new_Ok in H as (v & ->); constructor).
  - rewrite makeTag_list in H.
    apply TagList_new_Ok in H as (e & v & b & n & -> & Hloop).
    constructor. eapply TagList_loop_Forall; [| exact Hloop].
    intros b0 t b' Ht. split; [apply (makeTag_Ok _ _ _ _ _ _ Ht) | by eapply IH].
  - rewrite makeTag_compound in H.
    apply TagCompound_new_Ok in H as (v & -> & Hloop).
    constructor. eapply TagCompound_decode_Forall; [| | exact Hloop].
    + intros ty nm b0 t b' Ht.
      split; [apply (makeTag_Ok _ _ _ _ _ _ Ht) | by eapply IH].
    + apply map_Forall_empty.
Qed.

(** A keyed child whose name is not yet in the map is stored under it, and
    stays there. *)
Lemma TagCompound_decode_fresh_name
    (mk : TagType -> option string -> reader Tag) (fuel : nat)
    (val_ : gmap string Tag) (buf buf1 buf2 buf3 : istream)
    (type : TagType) (name : string) (tag : Tag) :
  readStream_TagType buf = Ok type buf1 ->
  type <> TAG_END ->
  readStream_string buf1 = Ok name buf2 ->
  mk type (Some name) buf2 = Ok tag buf3 ->
  val_ !! name = None ->
  TagCompound_decode mk (S fuel) val_ buf
  = TagCompound_decode mk fuel (<[name := tag]> val_) buf3
  /\ forall val' buf',
       TagCompound_decode mk (S fuel) val_ buf = Ok val' buf' ->
       val' !! name = Some tag.
Proof.
  intros Hty Hne Hname Htag Hnone.
  assert (Heq : TagCompound_decode mk (S fuel) val_ buf
                = TagCompound_decode mk fuel (<[name := tag]> val_) buf3).
  { simpl. unfold bind. rewrite Hty.
    destruct (Z.eqb_spec type 0); [done |].
    rewrite Hname, Htag. unfold unordered_map_insert. by rewrite Hnone. }
  split; [done |]. intros val' buf' H. rewrite Heq in H.
  eapply TagCompound_decode_keeps; [| exact H]. apply lookup_insert_eq.
Qed.

(** ** Arrays *)

Lemma TagArray_loop_Ok (T : ctype) (n : nat) (buf buf' : istream)
    (val_ : list Z) :
  TagArray_loop T n buf = Ok val_ buf' ->
  length val_ = n
  /\ length (unread buf) = (n * sizeof T + length (unread buf'))%nat.
Proof.
  revert buf val_. induction n as [| n IH]; intros buf val_ H; simpl in H.
  - inversion H; subst. split; [done | simpl; lia].
  - apply bind_Ok in H as (elem & buf1 & H1 & H).
    apply bind_Ok in H as (rest & buf2 & H2 & H).
    inversion H; subst; clear H.
    apply IH in H2 as [Hlen Hrd].
    apply readStream_Ok in H1 as (_ & Hn & _ & ->). simpl in Hrd.
    rewrite length_drop in Hrd. split; simpl; lia.
Qed.

Lemma TagArray_loop_short (T : ctype) (n : nat) (buf : istream) :
  good buf = false \/ (length (unread buf) < sizeof T)%nat ->
  TagArray_loop T (S n) buf = Undefined.
Proof. intros H. simpl. unfold bind. by rewrite readStream_short. Qed.

Lemma TagArray_loop_not_Throw (T : ctype) (n : nat) (buf : istream) :
  is_Throw (TagArray_loop T n buf) = false.
Proof.
  revert buf. induction n as [| n IH]; intros buf; [done |].
  simpl. unfold bind.
  destruct (readStream_cases T buf) as [-> | (v & buf1 & ->)]; [done |].
  specialize (IH buf1). by destruct (TagArray_loop T n buf1).
Qed.

(** The length a [uint32_t] read sees, in terms of the signed length the
    same four bytes encode. *)
Lemma readStream_uint32_int32 (buf buf1 : istream) (L : Z) :
  readStream int32_t buf = Ok L buf1 ->
  readStream uint32_t buf = Ok (L mod 2 ^ 32) buf1.
Proof.
  intros H. apply readStream_Ok in H as (Hg & Hn & -> & ->).
  rewrite readStream_enough by done. f_equal.
  unfold big_endian_value.
  rewrite (wrap_mod int32_t). unfold wrap. simpl.
  symmetry. apply Z.mod_small.
  pose proof (le_combine_bound (rev (take 4 (unread buf)))) as Hb.
  rewrite length_rev, length_take, Nat.min_l in Hb by done.
  exact Hb.
Qed.

(** How many elements an array decode reads, from the signed length [L] on
    the wire: [L mod 2^32] of them. *)
Lemma TagArray_decode_Ok (T : ctype) (buf buf1 buf' : istream) (L : Z)
    (val_ : list Z) :
  readStream int32_t buf = Ok L buf1 ->
  TagArray_decode T buf = Ok val_ buf' ->
  length val_ = Z.to_nat (L mod 2 ^ 32)
  /\ length (unread buf1)
     = (Z.to_nat (L mod 2 ^ 32) * sizeof T + length (unread buf'))%nat.
Proof.
  intros HL H. apply readStream_uint32_int32 in HL.
  unfold TagArray_decode, bind in H. rewrite HL in H.
  destruct (Z.leb_spec (L mod 2 ^ 32) 0) as [Hle | Hgt].
  - inversion H; subst.
    replace (Z.to_nat (L mod 2 ^ 32)) with 0%nat by lia. simpl. lia.
  - by apply TagArray_loop_Ok in H.
Qed.

(** ** The claims *)

(** C1, as amended.  On a stream whose exception mask is the default one (no
    bit set, as [example.cpp] opens its file; this is the stream [istream]
    models), no read looks at the state of the stream and a short read
    raises no failure.  A fixed-width read, and the loop that reads the
    elements of an array into its slots, throw nothing.  A fixed-width read,
    an array element's included, that finds the stream failed or shorter
    than its width leaves its value indeterminate: the outcome is
    [Undefined], not an exception.  A text read throws nothing; when it
    finds fewer bytes than its declared length it returns a text that begins
    with the bytes that were there and leaves the stream failed, and the
    STRING node built from it is returned. *)
Theorem short_read_raises_nothing (buf : istream) :
  (forall T, is_Throw (readStream T buf) = false)
  /\ is_Throw (readStream_string buf) = false
  /\ (forall T n, is_Throw (TagArray_loop T n buf) = false)
  /\ (forall T,
        good buf = false \/ (length (unread buf) < sizeof T)%nat ->
        readStream T buf = Undefined
        /\ forall n, TagArray_loop T (S n) buf = Undefined)
  /\ (forall L buf1,
        readStream uint16_t buf = Ok L buf1 ->
        (length (unread buf1) < Z.to_nat L)%nat ->
        exists pad,
          readStream_string buf
          = Ok (string_of_list_byte (unread buf1 ++ pad)) (mk_istream [] false)
          /\ forall name,
               TagString_new name buf
               = Ok (TagString name (string_of_list_byte (unread buf1 ++ pad)))
                    (mk_istream [] false)).
Proof.
  split; [intros T; apply readStream_not_Throw |].
  split; [apply readStream_string_not_Throw |].
  split; [intros T n; apply TagArray_loop_not_Throw |].
  split.
  - intros T H. split; [by apply readStream_short |].
    intros n. by apply TagArray_loop_short.
  - intros L buf1 HL Hshort.
    exists (replicate (Z.to_nat (L + 1) - length (unread buf1)) x00).
    pose proof (readStream_string_short _ _ _ HL Hshort) as Hs.
    split; [done |]. intros name. unfold TagString_new, bind. by rewrite Hs.
Qed.

(** C4, as amended.  Reading a tag type reads one unsigned byte and returns it
    as the tag type whatever its value: the read itself never fails on the
    value.  For a byte outside 0-12 the failure is raised later, by [makeTag],
    when it is asked to construct a tag of that type. *)
Theorem readStream_TagType_any_byte (b : byte) (rest : list byte) :
  readStream_TagType (mk_istream (b :: rest) true)
  = Ok (byte.unsigned b) (mk_istream rest true)
  /\ (~ (0 <= byte.unsigned b <= 12) ->
      forall fuel name buf,
        makeTag fuel (byte.unsigned b) name buf
        = Throw (runtime_error
                   ("makeTag: TagType " ++ to_string (byte.unsigned b)
                    ++ " not found")) buf).
Proof.
  split.
  - unfold readStream_TagType. rewrite readStream_enough by (simpl; lia).
    simpl. f_equal. unfold big_endian_value, wrap. simpl.
    apply le_combine_1.
  - intros H fuel name buf. by rewrite makeTag_unknown.
Qed.

(** C5.  List decode reads the element type, then a signed 32-bit length [L];
    when [L <= 0] it throws the list-length error, at the dispatcher too,
    with the stream just after the length, and no list is produced.  Array
    decode of the length bytes of [L = 0] returns the empty array. *)
Theorem TagList_decode_nonpositive_length
    (mk : TagType -> option string -> reader Tag)
    (buf buf1 buf2 : istream) (elemType L : Z) :
  readStream_TagType buf = Ok elemType buf1 ->
  readStream int32_t buf1 = Ok L buf2 ->
  L <= 0 ->
  TagList_decode mk buf
  = Throw (runtime_error
             "TagList::decode: not implement for variant length list") buf2
  /\ (forall fuel name,
        makeTag (S fuel) TAG_LIST name buf
        = Throw (runtime_error
                   "TagList::decode: not implement for variant length list")
                buf2)
  /\ (L = 0 -> forall T, TagArray_decode T buf1 = Ok [] buf2).
Proof.
  intros Hty HL Hle.
  assert (Hdec : forall mk', TagList_decode mk' buf
    = Throw (runtime_error
               "TagList::decode: not implement for variant length list") buf2).
  { intros mk'. unfold TagList_decode, bind. rewrite Hty, HL.
    by destruct (Z.leb_spec L 0); [| lia]. }
  split; [apply Hdec |]. split.
  - intros fuel name. rewrite makeTag_list. unfold TagList_new, bind.
    by rewrite Hdec.
  - intros -> T. apply readStream_uint32_int32 in HL.
    unfold TagArray_decode, bind. by rewrite HL.
Qed.

(** C9.  In a tree [readDocument] returns, the root carries the name read
    from the wire after the root's type byte, every child of a compound
    carries the name it was read with and is stored under, and every element
    of a list carries no name, at every depth. *)
Theorem readDocument_name_placement (buf buf' : istream) (root : Tag) :
  readDocument buf = Ok root buf' ->
  (exists name buf1 buf2,
     readStream_TagType buf = Ok TAG_COMPOUND buf1
     /\ readStream_string buf1 = Ok name buf2
     /\ getName root = Some name)
  /\ name_placement root.
Proof.
  intros H. unfold readDocument in H.
  apply bind_Ok in H as (type & buf1 & Hty & H).
  destruct (Z.eqb_spec type 10) as [-> | Hne]; [| discriminate].
  apply bind_Ok in H as (name & buf2 & Hname & H). split.
  - exists name, buf1, buf2. repeat split; try done.
    by apply makeTag_Ok in H as [_ ?].
  - by eapply makeTag_name_placement.
Qed.


(** ** Further properties of the endian normalizer *)

Lemma swap_same (k : nat) (u8 : list byte) : swap k k u8 = u8.
Proof.
  unfold swap. destruct (u8 !! k) as [x |] eqn:E; [| done].
  rewrite list_insert_insert_eq. by apply list_insert_id.
Qed.

Lemma swap_ends (a m b : list byte) (x y : byte) :
  swap (length a) (length a + S (length m)) (a ++ x :: m ++ y :: b)
  = a ++ y :: m ++ x :: b.
Proof.
  unfold swap.
  rewrite list_lookup_middle by done.
  assert (Hj : (a ++ x :: m ++ y :: b) !! (length a + S (length m))%nat
               = Some y).
  { rewrite lookup_app_r by lia.
    replace (length a + S (length m) - length a)%nat
      with (S (length m)) by lia.
    simpl. by rewrite list_lookup_middle. }
  rewrite Hj.
  rewrite (insert_app_r a), (insert_app_r_alt a) by lia.
  replace (length a - length a)%nat with 0%nat by lia. simpl.
  f_equal. f_equal.
  change (x :: m ++ y :: b) with ((x :: m) ++ y :: b).
  by rewrite (insert_app_r_alt m) by lia;
    replace (length m - length m)%nat with 0%nat by lia.
Qed.

Lemma swapEndian_loop_S (sz n k : nat) (u8 : list byte) :
  swapEndian_loop sz (S n) k u8
  = if (k * 2 <? sz)%nat
    then swapEndian_loop sz n (S k) (swap k (sz - k - 1) u8)
    else u8.
Proof. reflexivity. Qed.

(** After [length a] turns the loop has exchanged the ends [a] and [b]; what
    it still does is reverse the middle. *)
Lemma swapEndian_loop_middle (n sz : nat) (a m b : list byte) :
  length a = length b -> sz = (length a + length m + length b)%nat ->
  (length m <= n)%nat ->
  swapEndian_loop sz n (length a) (a ++ m ++ b) = a ++ rev m ++ b.
Proof.
  revert a m b. induction n as [| n IH]; intros a m b Hab Hsz Hn.
  - destruct m; [done | simpl in Hn; lia].
  - rewrite swapEndian_loop_S.
    destruct (Nat.ltb_spec (length a * 2) sz) as [Hlt | Hge].
    + destruct m as [| x m]; [simpl in Hsz; lia |].
      destruct (decide (m = [])) as [-> | Hne].
      * simpl in Hsz.
        replace (sz - length a - 1)%nat with (length a) by lia.
        rewrite swap_same.
        destruct n; [done |]. rewrite swapEndian_loop_S.
        destruct (Nat.ltb_spec (S (length a) * 2) sz); [lia | done].
      * destruct (exists_last Hne) as (m' & y & ->).
        rewrite length_cons, length_app in Hsz, Hn. simpl in Hsz, Hn.
        replace (sz - length a - 1)%nat
          with (length a + S (length m'))%nat by lia.
        replace (a ++ (x :: m' ++ [y]) ++ b) with (a ++ x :: m' ++ y :: b)
          by (simpl; by rewrite <- app_assoc).
        rewrite swap_ends.
        replace (S (length a)) with (length (a ++ [y]))
          by (rewrite length_app; simpl; lia).
        replace (a ++ y :: m' ++ x :: b) with ((a ++ [y]) ++ m' ++ (x :: b))
          by (by rewrite <- app_assoc).
        rewrite IH.
        -- simpl. rewrite rev_app_distr. simpl. by rewrite <- !app_assoc.
        -- rewrite length_app. simpl. lia.
        -- rewrite length_app. simpl. lia.
        -- lia.
    + assert (m = []) as -> by (destruct m; [done | simpl in Hsz; lia]).
      done.
Qed.

(** X1.  The loop of the generic [swapEndian], run on an object of any size,
    leaves the object's bytes in reverse order. *)
Theorem swapEndian_loop_reverses (u8 : list byte) :
  swapEndian_loop (length u8) (length u8) 0 u8 = rev u8.
Proof.
  pose proof (swapEndian_loop_middle (length u8) (length u8) [] u8 []
                eq_refl) as H.
  rewrite !app_nil_r in H. apply H; simpl; lia.
Qed.

Lemma object_value_bytes (T : ctype) (u : Z) :
  in_range T u -> object_value T (object_bytes T u) = u.
Proof.
  intros H. unfold object_value, object_bytes.
  destruct isHostLittleEndian; rewrite ?rev_involutive;
    rewrite le_combine_split; by apply wrap_in_range.
Qed.

Lemma length_object_bytes (T : ctype) (u : Z) :
  length (object_bytes T u) = sizeof T.
Proof.
  unfold object_bytes.
  destruct isHostLittleEndian; rewrite ?length_rev; apply length_le_split.
Qed.

Lemma object_bytes_value (T : ctype) (u8 : list byte) :
  length u8 = sizeof T -> object_bytes T (object_value T u8) = u8.
Proof.
  intros H. unfold object_value, object_bytes.
  destruct isHostLittleEndian; rewrite le_split_wrap.
  - by apply split_le_combine'.
  - rewrite split_le_combine' by (by rewrite length_rev).
    apply rev_involutive.
Qed.

(** X2.  [swapEndian] applied twice gives the value back, for every value of
    every fixed-width type, on either kind of host. *)
Theorem swapEndian_involutive (T : ctype) (u : Z) :
  in_range T u -> swapEndian T (swapEndian T u) = u.
Proof.
  intros H.
  assert (Hgen :
    object_value T
      (swapEndian_loop (sizeof T) (sizeof T) 0
         (object_bytes T
            (object_value T
               (swapEndian_loop (sizeof T) (sizeof T) 0 (object_bytes T u)))))
    = u).
  { rewrite (swapEndian_loop_rev T (object_bytes T u))
      by apply length_object_bytes.
    rewrite object_bytes_value by (rewrite length_rev; apply length_object_bytes).
    rewrite swapEndian_loop_rev by (rewrite length_rev; apply length_object_bytes).
    rewrite rev_involutive. by apply object_value_bytes. }
  destruct T; try exact Hgen. reflexivity.
Qed.

Lemma big_endian_value_in_range (T : ctype) (wire : list byte) :
  length wire = sizeof T -> in_range T (big_endian_value T wire).
Proof.
  intros Hlen. unfold big_endian_value.
  pose proof (le_combine_bound (rev wire)) as Hb.
  rewrite length_rev, Hlen in Hb. revert Hb.
  generalize (le_combine (rev wire)). intros u.
  unfold in_range, wrap, bits.
  destruct T; cbv [sizeof is_signed andb]; intros Hb;
    repeat match goal with
      | H : context [2 ^ ?e] |- _ =>
          let x := eval vm_compute in (2 ^ e) in change (2 ^ e) with x in H
      | |- context [2 ^ ?e] =>
          let x := eval vm_compute in (2 ^ e) in change (2 ^ e) with x
      end;
    try lia;
    match goal with
    | |- context [(?a <=? ?b)] => destruct (Z.leb_spec a b)
    end; lia.
Qed.

(** X3.  The normalizer turns the value of an object whose bytes came off the
    wire into the big-endian reading of those bytes, two's complement for
    the signed types, on a little-endian and on a big-endian host alike; the
    result is a value of the type. *)
Theorem refineBigEndian_big_endian (T : ctype) (wire : list byte) :
  length wire = sizeof T ->
  refineBigEndian T (object_value T wire)
  = wrap T (le_combine (rev wire))
  /\ in_range T (refineBigEndian T (object_value T wire)).
Proof.
  intros H. rewrite refineBigEndian_object_value by done.
  split; [done | by apply big_endian_value_in_range].
Qed.

(** ** Further properties of the readers *)

Lemma readStream_app (T : ctype) (wire rest : list byte) :
  length wire = sizeof T ->
  readStream T (mk_istream (wire ++ rest) true)
  = Ok (big_endian_value T wire) (mk_istream rest true).
Proof.
  intros H.
  rewrite readStream_enough; simpl; [| done | rewrite length_app; lia].
  by rewrite <- H, take_app_length, drop_app_length.
Qed.

(** X4.  On a good stream that holds at least [sizeof(T)] bytes, [readStream]
    returns the big-endian value of the first [sizeof(T)] bytes, a value of
    type [T], takes exactly those bytes and leaves the stream good. *)
Theorem readStream_big_endian (T : ctype) (wire rest : list byte) :
  length wire = sizeof T ->
  readStream T (mk_istream (wire ++ rest) true)
  = Ok (big_endian_value T wire) (mk_istream rest true)
  /\ in_range T (big_endian_value T wire).
Proof.
  intros H. split;
    [by apply readStream_app | by apply big_endian_value_in_range].
Qed.

(** X5.  For each fixed-width type and each value of it, reading the bytes
    the reference big-endian encoder wrote gives the value back and leaves
    what followed them, on either kind of host. *)
Theorem readStream_round_trip (T : ctype) (v : Z) (rest : list byte) :
  in_range T v ->
  readStream T (mk_istream (big_endian_encode (sizeof T) v ++ rest) true)
  = Ok v (mk_istream rest true).
Proof. apply readStream_big_endian_encode. Qed.

(** X6.  A text read on a good stream that holds the 16-bit length [L] and at
    least [L] more bytes returns those [L] bytes followed by one zero byte,
    takes exactly [2 + L] bytes and leaves the stream good. *)
Theorem readStream_string_complete (len text rest : list byte) :
  length len = 2%nat ->
  Z.of_nat (length text) = big_endian_value uint16_t len ->
  readStream_string (mk_istream (len ++ text ++ rest) true)
  = Ok (string_of_list_byte (text ++ [x00])) (mk_istream rest true)
  /\ String.length (string_of_list_byte (text ++ [x00]))
     = S (length text).
Proof.
  intros Hlen HL. split.
  - pose proof (readStream_app uint16_t len (text ++ rest) Hlen) as Hrd.
    rewrite (readStream_string_enough _ _ _ Hrd);
      rewrite <- HL, Nat2Z.id; simpl.
    + by rewrite take_app_length, drop_app_length.
    + rewrite length_app. lia.
  - rewrite length_string_of_list_byte, length_app. simpl. lia.
Qed.

Lemma readStream_in_range (T : ctype) (buf buf' : istream) (v : Z) :
  readStream T buf = Ok v buf' -> in_range T v.
Proof.
  intros H. apply readStream_Ok in H as (_ & Hn & -> & _).
  apply big_endian_value_in_range. rewrite length_take. lia.
Qed.

Lemma TagArray_loop_elements (T : ctype) (n : nat) (buf buf' : istream)
    (val_ : list Z) :
  TagArray_loop T n buf = Ok val_ buf' ->
  Forall (in_range T) val_
  /\ forall i, (i < n)%nat ->
       val_ !! i
       = Some (big_endian_value T
                 (take (sizeof T) (drop (i * sizeof T) (unread buf)))).
Proof.
  revert buf val_. induction n as [| n IH]; intros buf val_ H; simpl in H.
  - inversion H; subst. split; [constructor | intros i Hi; lia].
  - apply bind_Ok in H as (elem & buf1 & H1 & H).
    apply bind_Ok in H as (rest & buf2 & H2 & H).
    inversion H; subst; clear H.
    pose proof (readStream_in_range _ _ _ _ H1) as Hr.
    apply readStream_Ok in H1 as (_ & Hn & -> & ->).
    apply IH in H2 as [HF Hi]. split; [by constructor |].
    intros [| i] Hlt; [done |]. simpl.
    rewrite Hi by lia. simpl. by rewrite drop_drop.
Qed.

(** X7.  An array decode that returns has read the 32-bit length as an
    unsigned [len] and then exactly [len] elements: the [i]-th element is the
    big-endian value of the [i]-th group of [sizeof(T)] bytes after the
    length, every element is a value of [T], and exactly
    [4 + len * sizeof(T)] bytes were taken. *)
Theorem TagArray_decode_elements (T : ctype) (buf buf' : istream)
    (val_ : list Z) :
  TagArray_decode T buf = Ok val_ buf' ->
  exists len buf1,
    readStream uint32_t buf = Ok len buf1
    /\ length val_ = Z.to_nat len
    /\ Forall (in_range T) val_
    /\ (forall i, (i < length val_)%nat ->
          val_ !! i
          = Some (big_endian_value T
                    (take (sizeof T) (drop (i * sizeof T) (unread buf1)))))
    /\ length (unread buf)
       = (4 + length val_ * sizeof T + length (unread buf'))%nat.
Proof.
  intros H. unfold TagArray_decode in H.
  apply bind_Ok in H as (len & buf1 & Hlen & H).
  exists len, buf1. split; [done |].
  assert (Hfour : length (unread buf) = (4 + length (unread buf1))%nat).
  { apply readStream_Ok in Hlen as (_ & Hn & _ & ->). simpl in *.
    rewrite length_drop. lia. }
  assert (0 <= len).
  { apply readStream_Ok in Hlen as (_ & _ & -> & _).
    by apply big_endian_value_unsigned. }
  destruct (Z.leb_spec len 0) as [Hle | Hgt].
  - inversion H; subst. replace (Z.to_nat len) with 0%nat by lia.
    repeat split; try done; simpl; try lia; try (intros i Hi; lia).
  - pose proof (TagArray_loop_Ok _ _ _ _ _ H) as [Hl Hb].
    pose proof (TagArray_loop_elements _ _ _ _ _ H) as [HF Hi].
    repeat split; try done; try lia; try (by rewrite Hl).
Qed.

(** ** Further properties of the decoded tree *)

Lemma makeTag_Ok_type (fuel : nat) (type : TagType) (name : option string)
    (buf buf' : istream) (t : Tag) :
  makeTag fuel type name buf = Ok t buf' -> 1 <= type <= 12.
Proof.
  intros H. type_cases type; try lia.
  - by destruct fuel.
  - by rewrite makeTag_unknown in H.
Qed.

Lemma TagList_decode_Ok (mk : TagType -> option string -> reader Tag)
    (buf buf' : istream) (elemType_ : TagType) (val_ : list Tag) :
  TagList_decode mk buf = Ok (elemType_, val_) buf' ->
  exists L buf1 buf2,
    readStream_TagType buf = Ok elemType_ buf1
    /\ readStream int32_t buf1 = Ok L buf2
    /\ 0 < L
    /\ TagList_loop (mk elemType_ None) (Z.to_nat L) buf2 = Ok val_ buf'.
Proof.
  intros H. unfold TagList_decode in H.
  apply bind_Ok in H as (et & buf1 & Hty & H).
  apply bind_Ok in H as (L & buf2 & HL & H).
  destruct (Z.leb_spec L 0) as [Hle | Hgt]; [discriminate |].
  apply bind_Ok in H as (v & buf3 & Hloop & H).
  inversion H; subst. eauto 10.
Qed.

(** X8.  A list decode that returns has read the element type and a signed
    length [L > 0], and the list holds exactly [L] nodes, so it is never
    empty; each of them has the element type, which is one of the twelve
    constructible types, and no name. *)
Theorem TagList_decode_elements (fuel : nat) (buf buf' : istream)
    (elemType_ : TagType) (val_ : list Tag) :
  TagList_decode (makeTag fuel) buf = Ok (elemType_, val_) buf' ->
  exists L buf1 buf2,
    readStream_TagType buf = Ok elemType_ buf1
    /\ readStream int32_t buf1 = Ok L buf2
    /\ 0 < L
    /\ length val_ = Z.to_nat L
    /\ val_ <> []
    /\ 1 <= elemType_ <= 12
    /\ Forall (fun t => getTagType t = elemType_ /\ getName t = None) val_.
Proof.
  intros H. apply TagList_decode_Ok in H as (L & buf1 & buf2 & Hty & HL & Hpos & H).
  exists L, buf1, buf2.
  pose proof (TagList_loop_Forall
                (fun t => getTagType t = elemType_ /\ getName t = None)
                _ _ _ _ _ (fun b t b' Ht => makeTag_Ok _ _ _ _ _ _ Ht) H)
    as [HF Hlen].
  assert (Hne : val_ <> []) by (intros ->; simpl in Hlen; lia).
  repeat split; try done.
  - destruct (Z.to_nat L) as [| n] eqn:E; [lia |]. simpl in H.
    apply bind_Ok in H as (elem & b1 & Helem & _).
    apply makeTag_Ok_type in Helem. lia.
  - destruct (Z.to_nat L) as [| n] eqn:E; [lia |]. simpl in H.
    apply bind_Ok in H as (elem & b1 & Helem & _).
    apply makeTag_Ok_type in Helem. lia.
Qed.

Lemma TagArray_decode_in_range (T : ctype) (buf buf' : istream)
    (val_ : list Z) :
  TagArray_decode T buf = Ok val_ buf' -> Forall (in_range T) val_.
Proof.
  intros H. unfold TagArray_decode in H.
  apply bind_Ok in H as (len & buf1 & _ & H).
  destruct (len <=? 0); [inversion H; constructor |].
  by apply TagArray_loop_elements in H as [HF _].
Qed.

Lemma TagSingle_instance_type (T : ctype) (ty : TagType) :
  TagSingle_instance T ty = true -> 1 <= ty <= 6.
Proof.
  intros H.
  destruct T; try discriminate H;
    (destruct ty as [| p | p]; try discriminate H;
     do 4 (destruct p as [p | p |]; try discriminate H; try lia)).
Qed.

Lemma TagArray_instance_type (T : ctype) (ty : TagType) :
  TagArray_instance T ty = true -> 7 <= ty <= 12.
Proof.
  intros H.
  destruct T; try discriminate H;
    (destruct ty as [| p | p]; try discriminate H;
     do 4 (destruct p as [p | p |]; try discriminate H; try lia)).
Qed.

Lemma TagSingle_new_well_formed (T : ctype) (ty : TagType)
    (name : option string) (buf buf' : istream) (t : Tag) :
  TagSingle_instance T ty = true ->
  TagSingle_new T ty name buf = Ok t buf' -> well_formed t.
Proof.
  intros Hi H. apply bind_Ok in H as (v & buf1 & Hv & H).
  inversion H; subst. constructor; [done | by eapply readStream_in_range].
Qed.

Lemma TagArray_new_well_formed (T : ctype) (ty : TagType)
    (name : option string) (buf buf' : istream) (t : Tag) :
  TagArray_instance T ty = true ->
  TagArray_new T ty name buf = Ok t buf' -> well_formed t.
Proof.
  intros Hi H. apply bind_Ok in H as (v & buf1 & Hv & H).
  inversion H; subst. constructor; [done | by eapply TagArray_decode_in_range].
Qed.

Lemma makeTag_well_formed (fuel : nat) (type : TagType)
    (name : option string) (buf buf' : istream) (t : Tag) :
  makeTag fuel type name buf = Ok t buf' -> well_formed t.
Proof.
  revert type name buf buf' t.
  induction fuel as [| fuel IH]; intros type name buf buf' t H;
    type_cases type;
    try rewrite makeTag_unknown in H by done; try discriminate H;
    try (by eapply TagSingle_new_well_formed; [| exact H]);
    try (by eapply TagArray_new_well_formed; [| exact H]);
    try (apply TagString_new_Ok in H as (v & ->); constructor).
  - rewrite makeTag_list in H.
    apply bind_Ok in H as ([et v] & buf1 & Hd & H).
    inversion H; subst; clear H. simpl.
    apply TagList_decode_Ok in Hd as (L & b1 & b2 & _ & _ & Hpos & Hloop).
    pose proof (TagList_loop_Forall
                  (fun t => getTagType t = et /\ well_formed t)
                  _ _ _ _ _
                  (fun b t b' Ht =>
                     conj (proj1 (makeTag_Ok _ _ _ _ _ _ Ht))
                          (IH _ _ _ _ _ Ht)) Hloop) as [HF Hlen].
    constructor; [| done]. intros ->. simpl in Hlen. lia.
  - rewrite makeTag_compound in H.
    apply TagCompound_new_Ok in H as (v & -> & Hloop).
    constructor. eapply TagCompound_decode_Forall; [| | exact Hloop].
    + intros ty nm b0 t b' Ht. by eapply IH.
    + apply map_Forall_empty.
Qed.

(** X9.  Every tree the dispatcher returns, and so every tree
    [readDocument] returns, is well formed at every depth: each node is one
    of the instances the header names for its type, each number and each
    array element fits its type, each list is non-empty and holds only
    nodes of its element type.  In particular no node has type TAG_END. *)
Theorem decoded_tree_well_formed (fuel : nat) (type : TagType)
    (name : option string) (buf buf' : istream) (t : Tag) :
  (makeTag fuel type name buf = Ok t buf' -> well_formed t)
  /\ (readDocument buf = Ok t buf' -> well_formed t)
  /\ (well_formed t -> 1 <= getTagType t <= 12).
Proof.
  split; [apply makeTag_well_formed |]. split.
  - intros H. unfold readDocument in H.
    apply bind_Ok in H as (ty & buf1 & _ & H).
    destruct (negb (ty =? 10)); [discriminate |].
    apply bind_Ok in H as (nm & buf2 & _ & H).
    by eapply makeTag_well_formed.
  - intros Hwf. inversion Hwf as [T ty ? ? Hi | | T ty ? ? Hi | |]; subst;
      simpl; try lia.
    + apply TagSingle_instance_type in Hi. lia.
    + apply TagArray_instance_type in Hi. lia.
Qed.

(** ** The decoder only moves forward *)

Lemma istream_read_suffix (n : nat) (buf : istream) :
  unread (istream_read n buf).2 `suffix_of` unread buf.
Proof.
  unfold istream_read. destruct (good buf); [| done].
  destruct (n <=? length (unread buf))%nat; simpl;
    [apply suffix_drop | apply suffix_nil].
Qed.

Lemma ret_forward {A : Type} (a : A) : forward_only (ret a).
Proof. intros buf a' buf' H. by inversion H; subst. Qed.

Lemma bind_forward {A B : Type} (m : reader A) (k : A -> reader B) :
  forward_only m -> (forall a, forward_only (k a)) -> forward_only (bind m k).
Proof.
  intros Hm Hk buf b buf' H.
  apply bind_Ok in H as (a & buf1 & H1 & H2).
  apply Hm in H1. apply Hk in H2. by etrans.
Qed.

Lemma readStream_forward (T : ctype) : forward_only (readStream T).
Proof.
  intros buf v buf' H. apply readStream_Ok in H as (_ & _ & _ & ->).
  apply suffix_drop.
Qed.

Lemma readStream_string_forward : forward_only readStream_string.
Proof.
  apply bind_forward; [apply readStream_forward |].
  intros len buf s buf' H.
  pose proof (istream_read_suffix (Z.to_nat len) buf) as Hs.
  destruct (istream_read (Z.to_nat len) buf) as [got buf2].
  by inversion H; subst.
Qed.

Lemma TagArray_decode_forward (T : ctype) : forward_only (TagArray_decode T).
Proof.
  apply bind_forward; [apply readStream_forward |].
  intros len. destruct (len <=? 0); [apply ret_forward |].
  induction (Z.to_nat len) as [| n IH]; simpl; [apply ret_forward |].
  apply bind_forward; [apply readStream_forward |]. intros elem.
  apply bind_forward; [done |]. intros rest. apply ret_forward.
Qed.

Lemma TagList_decode_forward (mk : TagType -> option string -> reader Tag) :
  (forall type name, forward_only (mk type name)) ->
  forward_only (TagList_decode mk).
Proof.
  intros Hmk. apply bind_forward; [apply readStream_forward |].
  intros elemType_. apply bind_forward; [apply readStream_forward |].
  intros len. destruct (len <=? 0); [intros buf a buf' H; discriminate |].
  apply bind_forward; [| intros v; apply ret_forward].
  induction (Z.to_nat len) as [| n IH]; simpl; [apply ret_forward |].
  apply bind_forward; [done |]. intros elem.
  apply bind_forward; [done |]. intros rest. apply ret_forward.
Qed.

Lemma TagCompound_decode_forward
    (mk : TagType -> option string -> reader Tag) (fuel : nat)
    (val_ : gmap string Tag) :
  (forall type name, forward_only (mk type name)) ->
  forward_only (TagCompound_decode mk fuel val_).
Proof.
  intros Hmk. revert val_.
  induction fuel as [| fuel IH]; intros val_; simpl;
    [intros buf a buf' H; discriminate |].
  apply bind_forward; [apply readStream_forward |].
  intros type. destruct (type =? 0); [apply ret_forward |].
  apply bind_forward; [apply readStream_string_forward |].
  intros name. apply bind_forward; [done |]. intros tag. apply IH.
Qed.

Lemma makeTag_forward (fuel : nat) (type : TagType) (name : option string) :
  forward_only (makeTag fuel type name).
Proof.
  revert type name. induction fuel as [| fuel IH]; intros type name;
    type_cases type;
    try (apply bind_forward;
         [first [apply readStream_forward | apply readStream_string_forward
                | apply TagArray_decode_forward]
         | intros v; apply ret_forward]);
    try (intros buf a buf' H; discriminate H);
    try (rewrite makeTag_unknown by done; intros buf a buf' H; discriminate H).
  - rewrite makeTag_list. apply bind_forward;
      [by apply TagList_decode_forward | intros d; apply ret_forward].
  - rewrite makeTag_compound. apply bind_forward;
      [by apply TagCompound_decode_forward | intros d; apply ret_forward].
Qed.

(** X10.  A decode that returns has taken a non-empty run of bytes from the
    front of the stream and left the bytes after it as they were: the
    dispatcher never rewinds, skips back or returns without reading. *)
Theorem makeTag_forward_only (fuel : nat) (type : TagType)
    (name : option string) (buf buf' : istream) (t : Tag) :
  makeTag fuel type name buf = Ok t buf' ->
  exists consumed,
    unread buf = consumed ++ unread buf' /\ consumed <> [].
Proof.
  intros H. destruct (makeTag_forward _ _ _ _ _ _ H) as [consumed Hc].
  exists consumed. split; [done |]. intros ->.
  apply makeTag_consumes in H. rewrite Hc in H. simpl in H. lia.
Qed.


(** ** Where an unknown type is rejected *)

(** X14.  An id outside 0-12 is rejected only when [makeTag] is asked to
    build a tag of that type: for a compound's child that is after the
    child's name has been read, for a list after its length has been read,
    here a length between 1 and 65535, for which the list's slots are made
    first; the stream stands at the first byte of the payload. *)
Theorem unknown_type_rejected_at_construction (fuel : nat)
    (buf buf1 : istream) (type : TagType) :
  readStream_TagType buf = Ok type buf1 ->
  ~ (0 <= type <= 12) ->
  (forall name buf2 val_,
     readStream_string buf1 = Ok name buf2 ->
     TagCompound_decode (makeTag fuel) (S fuel) val_ buf
     = Throw (runtime_error
                ("makeTag: TagType " ++ to_string type ++ " not found"))
             buf2)
  /\ (forall L buf2,
        readStream int32_t buf1 = Ok L buf2 -> 0 < L <= 65535 ->
        TagList_decode (makeTag fuel) buf
        = Throw (runtime_error
                   ("makeTag: TagType " ++ to_string type ++ " not found"))
                buf2).
Proof.
  intros Hty Hout. split.
  - intros name buf2 val_ Hname. simpl. unfold bind. rewrite Hty.
    destruct (Z.eqb_spec type 0); [lia |].
    rewrite Hname. by rewrite makeTag_unknown.
  - intros L buf2 HL Hpos. unfold TagList_decode, bind. rewrite Hty, HL.
    destruct (Z.leb_spec L 0); [lia |].
    destruct (Z.to_nat L) as [| n] eqn:E; [lia |]. simpl. unfold bind.
    by rewrite makeTag_unknown.
Qed.

(** ** The table of names *)

Lemma TAGTYPE_TO_NAME_lookup (i : Z) (nm : string) :
  TAGTYPE_TO_NAME !! i = Some nm -> 0 <= i <= 12.
Proof.
  intros H. unfold TAGTYPE_TO_NAME in H.
  apply elem_of_list_to_map_2 in H.
  repeat (apply elem_of_cons in H as [H | H]; [inversion H; subst; lia |]).
  by apply elem_of_nil in H.
Qed.

(** X15.  [TAGTYPE_TO_NAME] has a name for exactly the ids 0-12, no two ids
    share a name, and the type of every node the dispatcher returns has a
    name, so [TAGTYPE_TO_NAME.at] finds it. *)
Theorem TAGTYPE_TO_NAME_covers_decoded (fuel : nat) (type : TagType)
    (name : option string) (buf buf' : istream) (t : Tag) :
  (forall i, is_Some (TAGTYPE_TO_NAME !! i) <-> 0 <= i <= 12)
  /\ (forall i j nm,
        TAGTYPE_TO_NAME !! i = Some nm -> TAGTYPE_TO_NAME !! j = Some nm ->
        i = j)
  /\ (makeTag fuel type name buf = Ok t buf' ->
      is_Some (TAGTYPE_TO_NAME !! getTagType t)).
Proof.
  assert (Hdom : forall i, 0 <= i <= 12 -> is_Some (TAGTYPE_TO_NAME !! i)).
  { intros i Hi.
    assert (i = 0 \/ i = 1 \/ i = 2 \/ i = 3 \/ i = 4 \/ i = 5 \/ i = 6
            \/ i = 7 \/ i = 8 \/ i = 9 \/ i = 10 \/ i = 11 \/ i = 12)
      as Hc by lia.
    repeat (destruct Hc as [-> | Hc]; [by eexists |]). subst. by eexists. }
  split; [| split].
  - intros i. split; [| apply Hdom].
    intros [nm H]. by apply TAGTYPE_TO_NAME_lookup in H.
  - intros i j nm Hi Hj.
    unfold TAGTYPE_TO_NAME in Hi, Hj.
    apply elem_of_list_to_map_2 in Hi, Hj.
    repeat (apply elem_of_cons in Hi as [Hi | Hi];
            [inversion Hi; subst; clear Hi;
             repeat (apply elem_of_cons in Hj as [Hj | Hj];
                     [by inversion Hj |]);
             by apply elem_of_nil in Hj |]).
    by apply elem_of_nil in Hi.
  - intros H. pose proof (makeTag_Ok_type _ _ _ _ _ _ H) as Hr.
    apply makeTag_Ok in H as [-> _]. apply Hdom. lia.
Qed.

(** X16.  A keyed child whose name is not yet in the map is decoded, stored
    under that name, and is what the map the loop finally returns holds
    under that name. *)
Theorem TagCompound_decode_new_name
    (fuel0 fuel : nat) (val_ : gmap string Tag)
    (buf buf1 buf2 buf3 : istream)
    (type : TagType) (name : string) (tag : Tag) :
  readStream_TagType buf = Ok type buf1 ->
  type <> TAG_END ->
  readStream_string buf1 = Ok name buf2 ->
  makeTag fuel0 type (Some name) buf2 = Ok tag buf3 ->
  val_ !! name = None ->
  TagCompound_decode (makeTag fuel0) (S fuel) val_ buf
  = TagCompound_decode (makeTag fuel0) fuel (<[name := tag]> val_) buf3
  /\ getName tag = Some name
  /\ forall val' buf',
       TagCompound_decode (makeTag fuel0) (S fuel) val_ buf = Ok val' buf' ->
       val' !! name = Some tag.
Proof.
  intros Hty Hne Hname Htag Hnone.
  destruct (TagCompound_decode_fresh_name (makeTag fuel0) fuel val_
              buf buf1 buf2 buf3 type name tag Hty Hne Hname Htag Hnone)
    as [H1 H2].
  split; [done |]. split; [| done].
  by apply makeTag_Ok in Htag as [_ ?].
Qed.

(** ** A returned document was read in full *)

Lemma TagCompound_decode_good
    (mk : TagType -> option string -> reader Tag) (fuel : nat)
    (val_ val' : gmap string Tag) (buf buf' : istream) :
  TagCompound_decode mk fuel val_ buf = Ok val' buf' -> good buf' = true.
Proof.
  revert val_ buf.
  induction fuel as [| fuel IH]; intros val_ buf H; [discriminate |].
  simpl in H. apply bind_Ok in H as (type & buf1 & Hty & H).
  destruct (type =? 0).
  - inversion H; subst. by apply readStream_Ok in Hty as (_ & _ & _ & ->).
  - apply bind_Ok in H as (name & buf2 & _ & H).
    apply bind_Ok in H as (tag & buf3 & _ & H). by eapply IH.
Qed.

(** X17.  When [readDocument] returns a tree the stream is good before and
    after: the last thing read is the END byte of the root compound, so no
    read of the decode came up short, although a STRING payload cut short
    is by itself returned as a node. *)
Theorem readDocument_leaves_stream_good (buf buf' : istream) (root : Tag) :
  readDocument buf = Ok root buf' ->
  good buf = true /\ good buf' = true
  /\ (length (unread buf') + 4 <= length (unread buf))%nat.
Proof.
  intros H. unfold readDocument in H.
  apply bind_Ok in H as (type & buf1 & Hty & H).
  destruct (Z.eqb_spec type 10) as [-> | Hne]; [| discriminate].
  apply bind_Ok in H as (name & buf2 & Hname & H). cbv beta in H.
  rewrite makeTag_compound in H.
  apply TagCompound_new_Ok in H as (val_ & -> & Hdec).
  pose proof (TagCompound_decode_good _ _ _ _ _ _ Hdec) as Hgood.
  apply TagCompound_decode_consumes in Hdec;
    [| intros ty nm; apply consumes_shrinks, makeTag_consumes].
  apply readStream_string_Ok in Hname as (L & b & HL & _ & _ & Hle).
  apply readStream_Ok in HL as (_ & HnL & _ & ->). simpl in Hle.
  rewrite length_drop in Hle. simpl in HnL.
  apply readStream_Ok in Hty as (Hg & Hn & _ & ->). simpl in *.
  rewrite length_drop in *. repeat split; try done. lia.
Qed.

(** ** The decoder against the wire format: what a payload decodes to *)

Lemma makeTag_single_instance (fuel : nat) (T : ctype) (ty : TagType)
    (name : option string) :
  TagSingle_instance T ty = true ->
  makeTag fuel ty name = TagSingle_new T ty name.
Proof.
  intros H.
  destruct T; try discriminate H;
    (destruct ty as [| p | p]; try discriminate H;
     do 4 (try (destruct p as [p | p |]; try discriminate H)));
    by destruct fuel.
Qed.

Lemma makeTag_array_instance (fuel : nat) (T : ctype) (ty : TagType)
    (name : option string) :
  TagArray_instance T ty = true ->
  makeTag fuel ty name = TagArray_new T ty name.
Proof.
  intros H.
  destruct T; try discriminate H;
    (destruct ty as [| p | p]; try discriminate H;
     do 4 (try (destruct p as [p | p |]; try discriminate H)));
    by destruct fuel.
Qed.

Lemma wire_ok_type (max_len : Z) (w : wire) :
  wire_ok max_len w -> 1 <= wire_type w <= 12.
Proof.
  destruct w as [T ty v | s | T ty vs | elemType elems | children];
    simpl; try lia.
  - intros [H _]. apply TagSingle_instance_type in H. lia.
  - intros [H _]. apply TagArray_instance_type in H. lia.
Qed.

Lemma readStream_TagType_encode (ty : TagType) (rest : list byte) :
  0 <= ty <= 255 ->
  readStream_TagType (mk_istream (big_endian_encode 1 ty ++ rest) true)
  = Ok ty (mk_istream rest true).
Proof.
  intros H. apply (readStream_big_endian_encode uint8_t).
  unfold in_range, bits. simpl. change (2 ^ (8 * Z.of_nat 1)) with 256. lia.
Qed.

Lemma readStream_length_encode (T : ctype) (n : nat) (rest : list byte) :
  sizeof T = 4%nat -> Z.of_nat n < 2 ^ 31 ->
  readStream T (mk_istream (big_endian_encode 4 (Z.of_nat n) ++ rest) true)
  = Ok (Z.of_nat n) (mk_istream rest true).
Proof.
  intros Hsz Hn. rewrite <- Hsz. apply readStream_big_endian_encode.
  unfold in_range, bits. rewrite Hsz.
  change (2 ^ (8 * Z.of_nat 4 - 1)) with (2 ^ 31).
  change (2 ^ (8 * Z.of_nat 4)) with (2 ^ 32).
  destruct (is_signed T); lia.
Qed.

Lemma TagArray_loop_encode (T : ctype) (vs : list Z) (rest : list byte) :
  Forall (in_range T) vs ->
  TagArray_loop T (length vs)
    (mk_istream (concat (map (big_endian_encode (sizeof T)) vs) ++ rest) true)
  = Ok vs (mk_istream rest true).
Proof.
  induction 1 as [| v vs Hv _ IH]; [done |].
  cbn [length TagArray_loop map concat]. unfold bind.
  rewrite <- app_assoc, readStream_big_endian_encode by done.
  by rewrite IH.
Qed.

Lemma TagArray_decode_encode (T : ctype) (vs : list Z) (rest : list byte) :
  Forall (in_range T) vs -> Z.of_nat (length vs) < 2 ^ 31 ->
  TagArray_decode T
    (mk_istream
       ((big_endian_encode 4 (Z.of_nat (length vs))
         ++ concat (map (big_endian_encode (sizeof T)) vs)) ++ rest) true)
  = Ok vs (mk_istream rest true).
Proof.
  intros Hvs Hlen. unfold TagArray_decode, bind.
  rewrite <- app_assoc, (readStream_length_encode uint32_t) by done.
  destruct (Z.leb_spec (Z.of_nat (length vs)) 0) as [Hle | Hgt].
  - destruct vs; [done | simpl in Hle; lia].
  - rewrite Nat2Z.id. by apply TagArray_loop_encode.
Qed.

Lemma TagList_loop_encode (mk : TagType -> option string -> reader Tag)
    (elemType : TagType) (elems : list wire) (rest : list byte) :
  Forall (fun e =>
            forall rest',
              (length (encode_payload e ++ rest')
               <= length (concat (map encode_payload elems) ++ rest))%nat ->
              wire_type e = elemType ->
              mk elemType None (mk_istream (encode_payload e ++ rest') true)
              = Ok (node_of None e) (mk_istream rest' true)) elems ->
  Forall (fun e => wire_type e = elemType) elems ->
  TagList_loop (mk elemType None) (length elems)
    (mk_istream (concat (map encode_payload elems) ++ rest) true)
  = Ok (map (node_of None) elems) (mk_istream rest true).
Proof.
  induction elems as [| e elems IH]; intros Hdec Hty; [done |].
  inversion Hdec as [| ? ? He Hrest]; subst.
  inversion Hty as [| ? ? Hte Htrest]; subst.
  cbn [length TagList_loop map concat]. unfold bind.
  rewrite <- app_assoc, He; [| cbn [map concat]; by rewrite <- app_assoc | done].
  rewrite IH; [done | | done].
  eapply Forall_impl; [exact Hrest |]. intros e' H' rest' Hlen.
  apply H'. cbn [map concat]. rewrite <- app_assoc, (length_app (encode_payload e)).
  lia.
Qed.

Lemma big_endian_encode_END : big_endian_encode 1 TAG_END = [x00].
Proof. reflexivity. Qed.

Lemma TagCompound_decode_encode
    (mk : TagType -> option string -> reader Tag) (max_len : Z)
    (children : list (string * wire)) (rest : list byte) (fuel : nat)
    (val_ : gmap string Tag) :
  Forall (fun p =>
            forall name rest',
              (length (encode_payload p.2 ++ rest')
               < length (encode_payload (WCompound children) ++ rest))%nat ->
              mk (wire_type p.2) name
                (mk_istream (encode_payload p.2 ++ rest') true)
              = Ok (node_of name p.2) (mk_istream rest' true)) children ->
  wire_ok max_len (WCompound children) ->
  (length children < fuel)%nat ->
  TagCompound_decode mk fuel val_
    (mk_istream (encode_payload (WCompound children) ++ rest) true)
  = Ok (foldl (fun m p =>
                 unordered_map_insert (text_as_read p.1)
                   (node_of (Some (text_as_read p.1)) p.2) m)
          val_ children)
       (mk_istream rest true).
Proof.
  revert fuel val_.
  induction children as [| [n c] children IH]; intros fuel val_ Hdec Hok Hfuel;
    (destruct fuel as [| fuel]; [simpl in Hfuel; lia |]).
  - cbn [encode_payload map concat app TagCompound_decode foldl].
    unfold bind.
    change (x00 :: rest) with (big_endian_encode 1 TAG_END ++ rest).
    by rewrite readStream_TagType_encode by lia.
  - inversion Hdec as [| ? ? Hc Hrest]; subst.
    destruct Hok as [[Hn Hcok] Hok]. fold (wire_ok max_len) in Hcok.
    cbn [fst snd] in Hn, Hcok, Hc.
    pose proof (wire_ok_type _ _ Hcok) as Hty.
    cbn [encode_payload map concat fst snd TagCompound_decode foldl].
    unfold bind. rewrite <- !app_assoc.
    rewrite readStream_TagType_encode by lia.
    destruct (Z.eqb_spec (wire_type c) 0) as [H0 | _]; [lia |].
    rewrite readStream_string_text_encode by done.
    fold (text_as_read n).
    rewrite Hc.
    2:{ cbn [encode_payload map concat fst snd].
        rewrite <- !app_assoc, !length_app, length_big_endian_encode. lia. }
    rewrite (app_assoc _ [x00] rest).
    change (concat (map (fun p => big_endian_encode 1 (wire_type p.2)
                                  ++ text_encode p.1 ++ encode_payload p.2)
                      children) ++ [x00])
      with (encode_payload (WCompound children)).
    apply IH; [| exact Hok | simpl in Hfuel; lia].
    eapply Forall_impl; [exact Hrest |]. intros p Hp name rest' Hlen.
    apply Hp. cbn [encode_payload map concat fst snd].
    rewrite <- !app_assoc, !length_app.
    cbn [encode_payload] in Hlen. rewrite !length_app in Hlen. lia.
Qed.

Lemma length_encode_children (children : list (string * wire)) :
  (length children < length (encode_payload (WCompound children)))%nat.
Proof.
  cbn [encode_payload]. rewrite length_app. simpl (length [x00]).
  induction children as [| p children IH]; cbn [map concat length]; [lia |].
  rewrite !length_app, length_big_endian_encode. lia.
Qed.

(** The bytes [encode_payload w] decode to [node_of name w], leaving what
    follows them unread, whenever the payload is one the format can carry and
    no count in it exceeds [max_len]. *)
Lemma makeTag_encode_payload (max_len : Z) (w : wire) :
  max_len < 2 ^ 31 -> wire_ok max_len w ->
  forall (fuel : nat) (name : option string) (rest : list byte),
    (length (encode_payload w ++ rest) < fuel)%nat ->
    makeTag fuel (wire_type w) name
      (mk_istream (encode_payload w ++ rest) true)
    = Ok (node_of name w) (mk_istream rest true).
Proof.
  intros Hmax.
  induction w as [T ty v | s | T ty vs | elemType elems IH | children IH]
    using wire_induction; intros Hok fuel name rest Hfuel.
  - destruct Hok as [Hi Hv]. cbn [wire_type encode_payload node_of].
    rewrite (makeTag_single_instance _ T) by done.
    unfold TagSingle_new, bind.
    by rewrite readStream_big_endian_encode.
  - cbn [wire_type encode_payload node_of wire_ok] in *.
    replace (makeTag fuel TAG_STRING name) with (TagString_new name)
      by (by destruct fuel).
    unfold TagString_new, bind.
    by rewrite readStream_string_text_encode.
  - destruct Hok as (Hi & Hlen & Hvs). cbn [wire_type encode_payload node_of].
    rewrite (makeTag_array_instance _ T) by done.
    unfold TagArray_new, bind.
    rewrite TagArray_decode_encode; [done | done | lia].
  - destruct Hok as (Hne & Hlen & Hok).
    destruct fuel as [| fuel]; [lia |].
    cbn [wire_type encode_payload node_of].
    rewrite makeTag_list. unfold TagList_new, TagList_decode, bind.
    assert (Helems : Forall (fun e => wire_type e = elemType
                                      /\ wire_ok max_len e) elems).
    { clear -Hok. induction elems as [| e elems IHe]; constructor.
      - exact (proj1 Hok).
      - apply IHe, (proj2 Hok). }
    assert (Hty : 0 <= elemType <= 255).
    { destruct elems as [| e elems]; [done |].
      inversion Helems as [| ? ? [He1 He2] _]; subst.
      apply wire_ok_type in He2. lia. }
    rewrite <- !app_assoc.
    rewrite readStream_TagType_encode by done.
    rewrite (readStream_length_encode int32_t) by (done || lia).
    destruct (Z.leb_spec (Z.of_nat (length elems)) 0) as [Hle | _].
    { destruct elems; [done | simpl in Hle; lia]. }
    rewrite Nat2Z.id.
    rewrite (TagList_loop_encode (makeTag fuel)); [done | |].
    + rewrite Forall_forall in IH, Helems. apply Forall_forall.
      intros e He rest' Hlen' Hte. rewrite <- Hte.
      apply IH; [done | by apply Helems |].
      cbn [encode_payload] in Hfuel.
      rewrite <- !app_assoc, !length_app, !length_big_endian_encode in Hfuel.
      rewrite !length_app in Hlen'. rewrite length_app. lia.
    + eapply Forall_impl; [exact Helems |]. by intros e [].
  - destruct fuel as [| fuel]; [lia |].
    cbn [wire_type node_of].
    rewrite makeTag_compound. unfold TagCompound_new, bind.
    rewrite (TagCompound_decode_encode (makeTag fuel) max_len); [done | | done |].
    + assert (Hch : Forall (fun p => wire_ok max_len p.2) children).
      { clear -Hok. cbn [wire_ok] in Hok.
        induction children as [| p children IHc]; constructor.
        - exact (proj2 (proj1 Hok)).
        - apply IHc, (proj2 Hok). }
      rewrite Forall_forall in IH, Hch. apply Forall_forall.
      intros p Hp name' rest' Hlen'. apply IH; [done | by apply Hch | lia].
    + pose proof (length_encode_children children) as H.
      rewrite length_app in Hfuel. lia.
Qed.

(** ** The decoder against the wire format: what a returned node was read from *)

Lemma big_endian_encode_value (T : ctype) (wire : list byte) :
  length wire = sizeof T ->
  big_endian_encode (sizeof T) (big_endian_value T wire) = wire.
Proof.
  intros H. rewrite big_endian_encode_rev. unfold big_endian_value.
  rewrite le_split_wrap, split_le_combine' by (by rewrite length_rev).
  apply rev_involutive.
Qed.

Lemma readStream_encode (T : ctype) (buf buf' : istream) (v : Z) :
  readStream T buf = Ok v buf' ->
  good buf = true /\ good buf' = true
  /\ unread buf = big_endian_encode (sizeof T) v ++ unread buf'.
Proof.
  intros H. apply readStream_Ok in H as (Hg & Hn & -> & ->).
  split; [done |]. split; [done |]. simpl.
  rewrite big_endian_encode_value by (by apply length_take_le).
  by rewrite take_drop.
Qed.

Lemma string_of_list_byte_snoc (l : list byte) :
  string_of_list_byte (l ++ [x00]) = text_as_read (string_of_list_byte l).
Proof.
  induction l as [| b l IH]; [done |].
  change (string_of_list_byte ((b :: l) ++ [x00]))
    with (String (Ascii.ascii_of_byte b) (string_of_list_byte (l ++ [x00]))).
  by rewrite IH.
Qed.

Lemma readStream_string_encode (buf buf' : istream) (s' : string) :
  readStream_string buf = Ok s' buf' ->
  good buf = true
  /\ (good buf' = true ->
      exists s, s' = text_as_read s
                /\ unread buf = text_encode s ++ unread buf').
Proof.
  intros H.
  destruct (readStream_string_Ok _ _ _ H) as (L & buf1 & HL & HL0 & _ & _).
  destruct (readStream_encode _ _ _ _ HL) as (Hg & Hg1 & Hbuf).
  split; [done |]. intros Hg'.
  destruct (le_lt_dec (Z.to_nat L) (length (unread buf1))) as [Hle | Hlt].
  - rewrite (readStream_string_enough _ _ _ HL Hle) in H.
    inversion H; subst; clear H.
    exists (string_of_list_byte (take (Z.to_nat L) (unread buf1))).
    split; [apply string_of_list_byte_snoc |].
    unfold text_encode.
    rewrite length_string_of_list_byte, length_take_le, Z2Nat.id by done.
    rewrite list_byte_of_string_of_list_byte, Hbuf.
    change (sizeof uint16_t) with 2%nat. cbn [unread].
    by rewrite <- app_assoc, take_drop.
  - rewrite (readStream_string_short _ _ _ HL Hlt) in H.
    inversion H; subst. discriminate Hg'.
Qed.

Lemma TagArray_loop_sound (T : ctype) (n : nat) (buf buf' : istream)
    (val_ : list Z) :
  TagArray_loop T n buf = Ok val_ buf' ->
  length val_ = n
  /\ unread buf
     = concat (map (big_endian_encode (sizeof T)) val_) ++ unread buf'.
Proof.
  revert buf val_.
  induction n as [| n IH]; intros buf val_ H.
  - by inversion H.
  - simpl in H. apply bind_Ok in H as (v & buf1 & Hv & H).
    apply bind_Ok in H as (vs & buf2 & Hvs & H). inversion H; subst.
    apply readStream_encode in Hv as (_ & _ & ->).
    apply IH in Hvs as [<- ->]. simpl. by rewrite <- app_assoc.
Qed.

Lemma TagArray_decode_sound (T : ctype) (buf buf' : istream) (val_ : list Z) :
  TagArray_decode T buf = Ok val_ buf' ->
  good buf = true
  /\ unread buf
     = (big_endian_encode 4 (Z.of_nat (length val_))
        ++ concat (map (big_endian_encode (sizeof T)) val_)) ++ unread buf'.
Proof.
  intros H. unfold TagArray_decode in H.
  apply bind_Ok in H as (len & buf1 & Hlen & H).
  pose proof (readStream_in_range _ _ _ _ Hlen) as Hr.
  apply (readStream_encode uint32_t) in Hlen as (Hg & _ & ->).
  split; [done |]. rewrite <- app_assoc.
  unfold in_range in Hr. simpl in Hr.
  destruct (Z.leb_spec len 0) as [Hle | Hgt].
  - inversion H; subst. simpl. by replace len with 0 by lia.
  - apply TagArray_loop_sound in H as [Hl ->].
    by rewrite Hl, Z2Nat.id by lia.
Qed.

Lemma TagList_loop_sound (mk : reader Tag) (elemType : TagType) :
  (forall buf t buf',
     mk buf = Ok t buf' ->
     good buf = true
     /\ (good buf' = true ->
         exists w, wire_type w = elemType /\ t = node_of None w
                   /\ unread buf = encode_payload w ++ unread buf')) ->
  forall (n : nat) (buf buf' : istream) (val_ : list Tag),
    TagList_loop mk n buf = Ok val_ buf' ->
    good buf' = true ->
    good buf = true
    /\ exists elems,
         length elems = n
         /\ Forall (fun w => wire_type w = elemType) elems
         /\ val_ = map (node_of None) elems
         /\ unread buf = concat (map encode_payload elems) ++ unread buf'.
Proof.
  intros Hmk.
  induction n as [| n IH]; intros buf buf' val_ H Hg'.
  - inversion H; subst. split; [done |]. by exists [].
  - simpl in H. apply bind_Ok in H as (t & buf1 & Ht & H).
    apply bind_Ok in H as (ts & buf2 & Hts & H). inversion H; subst.
    destruct (IH _ _ _ Hts Hg') as (Hg1 & elems & Hl & Hty & -> & Hbuf).
    destruct (Hmk _ _ _ Ht) as [Hg Hw].
    destruct (Hw Hg1) as (w & Hwt & -> & Hb).
    split; [done |]. exists (w :: elems).
    split; [by rewrite <- Hl |]. split; [by constructor |]. split; [done |].
    simpl. by rewrite Hb, Hbuf, <- app_assoc.
Qed.

Lemma TagCompound_decode_sound
    (mk : TagType -> option string -> reader Tag) :
  (forall type name buf t buf',
     mk type name buf = Ok t buf' ->
     good buf = true
     /\ (good buf' = true ->
         exists w, wire_type w = type /\ t = node_of name w
                   /\ unread buf = encode_payload w ++ unread buf')) ->
  forall (fuel : nat) (val_ val' : gmap string Tag) (buf buf' : istream),
    TagCompound_decode mk fuel val_ buf = Ok val' buf' ->
    good buf = true
    /\ exists children,
         val' = foldl (fun m p =>
                         unordered_map_insert (text_as_read p.1)
                           (node_of (Some (text_as_read p.1)) p.2) m)
                  val_ children
         /\ unread buf = encode_payload (WCompound children) ++ unread buf'.
Proof.
  intros Hmk.
  induction fuel as [| fuel IH]; intros val_ val' buf buf' H; [discriminate |].
  simpl in H. apply bind_Ok in H as (type & buf1 & Hty & H).
  apply (readStream_encode uint8_t) in Hty as (Hg & Hg1 & Hbuf).
  split; [done |].
  destruct (Z.eqb_spec type 0) as [-> | Hne].
  - inversion H; subst. by exists [].
  - apply bind_Ok in H as (name & buf2 & Hname & H).
    apply bind_Ok in H as (tag & buf3 & Htag & H).
    destruct (IH _ _ _ _ H) as (Hg3 & children & -> & Hbuf3).
    destruct (Hmk _ _ _ _ _ Htag) as [Hg2 Hw].
    destruct (Hw Hg3) as (w & Hwt & -> & Hbuf2).
    destruct (readStream_string_encode _ _ _ Hname) as [_ Hs].
    destruct (Hs Hg2) as (s & -> & Hbuf1).
    exists ((s, w) :: children). split; [done |].
    cbn [encode_payload map concat fst snd].
    rewrite Hwt, Hbuf, Hbuf1, Hbuf2, Hbuf3.
    change (sizeof uint8_t) with 1%nat. cbn [encode_payload].
    by rewrite <- !app_assoc.
Qed.

(** A node the dispatcher returns on a stream it leaves good is [node_of] a
    payload of the requested type, and the bytes consumed are that payload's
    encoding. *)
Lemma makeTag_sound (fuel : nat) (type : TagType) (name : option string)
    (buf buf' : istream) (t : Tag) :
  makeTag fuel type name buf = Ok t buf' ->
  good buf = true
  /\ (good buf' = true ->
      exists w, wire_type w = type /\ t = node_of name w
                /\ unread buf = encode_payload w ++ unread buf').
Proof.
  assert (Hsingle : forall T ty name buf buf' t,
            TagSingle_new T ty name buf = Ok t buf' ->
            good buf = true
            /\ (good buf' = true ->
                exists w, wire_type w = ty /\ t = node_of name w
                          /\ unread buf = encode_payload w ++ unread buf')).
  { clear. intros T ty name buf buf' t H.
    apply bind_Ok in H as (v & buf1 & Hv & H). inversion H; subst.
    apply readStream_encode in Hv as (Hg & _ & Hb).
    split; [done |]. intros _. by exists (WSingle T ty v). }
  assert (Harray : forall T ty name buf buf' t,
            TagArray_new T ty name buf = Ok t buf' ->
            good buf = true
            /\ (good buf' = true ->
                exists w, wire_type w = ty /\ t = node_of name w
                          /\ unread buf = encode_payload w ++ unread buf')).
  { clear. intros T ty name buf buf' t H.
    apply bind_Ok in H as (v & buf1 & Hv & H). inversion H; subst.
    apply TagArray_decode_sound in Hv as (Hg & Hb).
    split; [done |]. intros _. by exists (WArray T ty v). }
  assert (Hstring : forall name buf buf' t,
            TagString_new name buf = Ok t buf' ->
            good buf = true
            /\ (good buf' = true ->
                exists w, wire_type w = TAG_STRING /\ t = node_of name w
                          /\ unread buf = encode_payload w ++ unread buf')).
  { clear. intros name buf buf' t H.
    apply bind_Ok in H as (v & buf1 & Hv & H). inversion H; subst.
    apply readStream_string_encode in Hv as (Hg & Hb).
    split; [done |]. intros Hg'. destruct (Hb Hg') as (s & -> & Hs).
    by exists (WString s). }
  revert type name buf buf' t.
  induction fuel as [| fuel IH]; intros type name buf buf' t H;
    type_cases type;
    try rewrite makeTag_unknown in H by done; try discriminate H;
    try (by eapply Hsingle; exact H);
    try (by eapply Harray; exact H);
    try (by eapply Hstring; exact H).
  - rewrite makeTag_list in H.
    apply bind_Ok in H as ([et v] & buf1 & Hd & H).
    inversion H; subst; clear H. simpl.
    apply TagList_decode_Ok in Hd as (L & b1 & b2 & Het & HL & Hpos & Hloop).
    apply (readStream_encode uint8_t) in Het as (Hg & _ & Hb).
    apply (readStream_encode int32_t) in HL as (_ & _ & Hb1).
    split; [done |]. intros Hg'.
    destruct (TagList_loop_sound _ et (fun b t b' => IH et None b b' t)
                _ _ _ _ Hloop Hg')
      as (_ & elems & Hl & Hty & -> & Hb2).
    exists (WList et elems). split; [done |]. split; [done |].
    cbn [encode_payload]. rewrite Hl, Z2Nat.id by lia.
    by rewrite Hb, Hb1, Hb2, <- !app_assoc.
  - rewrite makeTag_compound in H.
    apply TagCompound_new_Ok in H as (v & -> & Hloop).
    destruct (TagCompound_decode_sound _
                (fun ty nm b t b' => IH ty nm b b' t) _ _ _ _ _ Hloop)
      as (Hg & children & -> & Hb).
    split; [done |]. intros _. by exists (WCompound children).
Qed.

Lemma makeTag_node_class (fuel : nat) (type : TagType)
    (name : option string) (buf buf' : istream) (t : Tag) :
  makeTag fuel type name buf = Ok t buf' -> node_class type name t.
Proof.
  intros H. destruct (makeTag_Ok _ _ _ _ _ _ H) as [Hty Hn].
  pose proof (makeTag_well_formed _ _ _ _ _ _ H) as Hwf.
  destruct t; simpl in *; subst; inversion Hwf; subst; done.
Qed.

(** ** The claims about the dispatcher and the document *)

(** C6.  After the first tag-type byte: when it is not the COMPOUND id,
    [readDocument] throws the named-compound error with exactly that one byte
    consumed.  When it is the COMPOUND id, [readDocument] reads the root name
    and decodes the root compound, fuel never running out: if the bytes that
    follow are the encoding of a name and of a compound payload the format
    can carry, with no array or list longer than 65535, the result is the
    compound node of exactly that payload at every depth, under that name as
    [readStream<std::string>] returns it, and what follows the payload is left
    unread; and whatever root is returned is the node of a name and of a
    compound payload whose encoding is what was consumed. *)
Theorem readDocument_root (buf buf1 : istream) (type : TagType) :
  readStream_TagType buf = Ok type buf1 ->
  (type <> TAG_COMPOUND ->
   readDocument buf
   = Throw (runtime_error
              "readDocument: document should be a named compound") buf1
   /\ length (unread buf) = S (length (unread buf1)))
  /\ (type = TAG_COMPOUND ->
      readDocument buf <> OutOfFuel
      /\ (forall name children rest,
            unread buf1
            = text_encode name ++ encode_payload (WCompound children) ++ rest ->
            in_range uint16_t (Z.of_nat (String.length name)) ->
            wire_ok 65535 (WCompound children) ->
            unread buf = encode_document name children ++ rest
            /\ readDocument buf
               = Ok (node_of (Some (text_as_read name)) (WCompound children))
                    (mk_istream rest true))
      /\ (forall root buf',
            readDocument buf = Ok root buf' ->
            exists name children,
              root = node_of (Some (text_as_read name)) (WCompound children)
              /\ unread buf = encode_document name children ++ unread buf'
              /\ good buf' = true)).
Proof.
  intros Hty. split.
  - intros Hne. split.
    + unfold readDocument, bind. rewrite Hty.
      destruct (Z.eqb_spec type 10); [done | reflexivity].
    + apply readStream_Ok in Hty as (_ & Hn & _ & ->). simpl in *.
      rewrite length_drop. lia.
  - intros ->. split; [apply readDocument_fuelled |].
    destruct (readStream_encode _ _ _ _ Hty) as (Hg & Hg1 & Hbuf).
    change (sizeof uint8_t) with 1%nat in Hbuf. split.
    + intros name children rest Hb1 Hname Hok.
      split; [unfold encode_document; by rewrite Hbuf, Hb1, <- !app_assoc |].
      unfold readDocument, bind. rewrite Hty.
      change (negb (10 =? 10)) with false. cbv iota.
      destruct buf1 as [u1 g1]. cbn [unread good] in Hg1, Hb1. subst g1 u1.
      rewrite readStream_string_text_encode by done.
      cbv beta. fold (text_as_read name).
      apply (makeTag_encode_payload 65535 (WCompound children));
        [done | done | cbn [unread]; lia].
    + intros root buf' H. unfold readDocument in H.
      apply bind_Ok in H as (type & b1 & Hty' & H).
      rewrite Hty in Hty'. inversion Hty'; subst type b1; clear Hty'.
      change (negb (10 =? 10)) with false in H. cbv iota in H.
      apply bind_Ok in H as (nm & buf2 & Hname & H). cbv beta in H.
      rewrite makeTag_compound in H.
      apply TagCompound_new_Ok in H as (val_ & -> & Hloop).
      pose proof (TagCompound_decode_good _ _ _ _ _ _ Hloop) as Hg'.
      destruct (TagCompound_decode_sound _
                  (fun ty n b t b' =>
                     makeTag_sound (length (unread buf2)) ty n b b' t)
                  _ _ _ _ _ Hloop)
        as (Hg2 & children & -> & Hb2).
      destruct (readStream_string_encode _ _ _ Hname) as [_ Hs].
      destruct (Hs Hg2) as (name & -> & Hb1).
      exists name, children. split; [done |]. split; [| done].
      unfold encode_document. by rewrite Hbuf, Hb1, Hb2, <- !app_assoc.
Qed.

(** C7.  [makeTag] throws [invalid_argument] for TAG_END and the "not found"
    [runtime_error] for every id outside 0-12.  For each of the twelve other
    types, whatever it returns is a node of the class the header gives that
    type, with the requested type and the given name, and, when the stream
    is left good, it is the node of a payload of that type whose encoding is
    what was consumed; on the encoding of a payload of that type the format
    can carry, with no array or list longer than 65535, it returns the node
    of exactly that payload and leaves the rest unread; and there is such a
    payload, and a stream on which it returns, for each of the twelve. *)
Theorem makeTag_dispatch (type : TagType) :
  (type = TAG_END ->
   forall fuel name buf,
     makeTag fuel type name buf
     = Throw (invalid_argument "makeTag: TagType shouldn't be TAG_END") buf)
  /\ (~ (0 <= type <= 12) ->
      forall fuel name buf,
        makeTag fuel type name buf
        = Throw (runtime_error
                   ("makeTag: TagType " ++ to_string type ++ " not found"))
                buf)
  /\ (1 <= type <= 12 ->
      (forall fuel name buf t buf',
         makeTag fuel type name buf = Ok t buf' ->
         getTagType t = type /\ getName t = name
         /\ node_class type name t
         /\ (good buf' = true ->
             exists w, wire_type w = type /\ t = node_of name w
                       /\ unread buf = encode_payload w ++ unread buf'))
      /\ (forall w fuel name rest,
            wire_type w = type -> wire_ok 65535 w ->
            (length (encode_payload w ++ rest) < fuel)%nat ->
            makeTag fuel type name
              (mk_istream (encode_payload w ++ rest) true)
            = Ok (node_of name w) (mk_istream rest true))
      /\ (exists w, wire_type w = type /\ wire_ok 65535 w)
      /\ (forall name, exists buf t buf',
            makeTag 1 type name buf = Ok t buf')).
Proof.
  split; [| split].
  - intros -> fuel name buf. by destruct fuel.
  - intros H fuel name buf. by rewrite makeTag_unknown.
  - intros H. split; [| split; [| split]].
    + intros fuel name buf t buf' Ht.
      destruct (makeTag_Ok _ _ _ _ _ _ Ht) as [Hty Hn].
      split; [done |]. split; [done |].
      split; [by eapply makeTag_node_class |].
      by apply (makeTag_sound _ _ _ _ _ _ Ht).
    + intros w fuel name rest <- Hok Hfuel.
      by apply (makeTag_encode_payload 65535).
    + assert (H0 : forall T, in_range T 0).
      { intros T. by destruct T; vm_compute. }
      type_cases type; try lia.
      * exists (WSingle int8_t TAG_BYTE 0). by repeat split.
      * exists (WSingle int16_t TAG_SHORT 0). by repeat split.
      * exists (WSingle int32_t TAG_INT 0). by repeat split.
      * exists (WSingle int64_t TAG_LONG 0). by repeat split.
      * exists (WSingle float TAG_FLOAT 0). by repeat split.
      * exists (WSingle double TAG_DOUBLE 0). by repeat split.
      * exists (WArray int8_t TAG_BYTE_ARRAY []). by repeat split.
      * exists (WString EmptyString). by repeat split.
      * exists (WList TAG_BYTE [WSingle int8_t TAG_BYTE 0]). by repeat split.
      * by exists (WCompound []).
      * exists (WArray int32_t TAG_INT_ARRAY []). by repeat split.
      * exists (WArray int64_t TAG_LONG_ARRAY []). by repeat split.
    + intros name. by apply makeTag_returns.
Qed.

End Host.

(** ** The claims on concrete streams *)

Example readDocument_nested :
  both_hosts (fun le =>
    readDocument le (stream nested_document) = Ok nested_root (stream [])).
Proof. split; vm_compute; reflexivity. Qed.

(** A compound holding two children named "x": the first one stays. *)
Example TagCompound_decode_two_x :
  both_hosts (fun le =>
    TagCompound_decode le (makeTag le 0) 3 ∅
      (stream [1; 0; 1; 120; 7;  1; 0; 1; 120; 8;  0])
    = Ok {[ ("x" ++ nul)%string :=
              TagSingle int8_t TAG_BYTE (Some ("x" ++ nul)%string) 7 ]}
         (stream [])).
Proof. split; vm_compute; reflexivity. Qed.

(** The compound of the specification's example, [BYTE "x" 7] then END. *)
Example TagCompound_decode_x_7 :
  both_hosts (fun le =>
    exists name,
      TagCompound_decode le (makeTag le 0) 2 ∅ (stream [1; 0; 1; 120; 7; 0])
      = Ok {[ name := TagSingle int8_t TAG_BYTE (Some name) 7 ]} (stream [])
      /\ name = ("x" ++ nul)%string).
Proof.
  split; exists ("x" ++ nul)%string;
    (split; [vm_compute; reflexivity | reflexivity]).
Qed.

(** C1, counterexample.  A STRING payload that declares two bytes and holds
    one: the text read fails nothing and the dispatcher returns a node; a
    four-byte read on a two-byte stream raises nothing either. *)
Lemma truncated_text_read_returns_a_node :
  both_hosts (fun le =>
    makeTag le 0 TAG_STRING None (stream [0; 2; 65])
    = Ok (TagString None ("A" ++ nul ++ nul)%string) (mk_istream [] false)
    /\ is_Throw (readStream le int32_t (stream [1; 2])) = false).
Proof. split; split; vm_compute; reflexivity. Qed.

Lemma short_read_raises_nothing_witness :
  (exists pad,
     readStream_string true (stream [0; 2; 65])
     = Ok (string_of_list_byte ([x41] ++ pad)) (mk_istream [] false)
     /\ forall name,
          TagString_new true name (stream [0; 2; 65])
          = Ok (TagString name (string_of_list_byte ([x41] ++ pad)))
               (mk_istream [] false))
  /\ readStream true int32_t (stream [1; 2]) = Undefined.
Proof.
  split.
  - apply (proj2 (proj2 (proj2 (proj2
             (short_read_raises_nothing true (stream [0; 2; 65])))))
             2 (stream [65])); [vm_compute; reflexivity | simpl; lia].
  - apply (proj1 (proj2 (proj2 (proj2
             (short_read_raises_nothing true (stream [1; 2])))))
             int32_t).
    right. simpl. lia.
Defined.

(** C2, on the stream [00 01 41]: the declared length is 1 and the text
    returned has two bytes, "A" and a zero byte. *)
Theorem readStream_string_keeps_terminator :
  both_hosts (fun le =>
    readStream_string le (stream [0; 1; 65])
    = Ok ("A" ++ nul)%string (stream []))
  /\ String.length ("A" ++ nul) = 2%nat.
Proof. split; [split; vm_compute |]; reflexivity. Qed.

(** C3, on the stream [FF FF FF FF 07]: the signed length is -1, the array
    decode takes it for 4294967295, reads the byte 07 as the first element
    and goes on reading; the outcome is not the empty array. *)
Theorem TagArray_decode_negative_length :
  both_hosts (fun le =>
    readStream le int32_t (stream [255; 255; 255; 255; 7])
    = Ok (-1) (stream [7])
    /\ readStream le uint32_t (stream [255; 255; 255; 255; 7])
       = Ok 4294967295 (stream [7])
    /\ TagArray_loop le int8_t 1 (stream [7]) = Ok [7] (stream [])
    /\ TagArray_decode le int8_t (stream [255; 255; 255; 255; 7]) = Undefined
    /\ TagArray_decode le int8_t (stream [255; 255; 255; 255; 7])
       <> Ok [] (stream [7])).
Proof.
  split; repeat split; try (lazy; reflexivity); lazy; discriminate.
Qed.

(** C4, counterexample.  The byte 13 is read as a tag type without failure;
    in a compound, the failure comes from the dispatcher after the child's
    name has been read. *)
Lemma tag_type_13_is_read_without_failure :
  both_hosts (fun le =>
    readStream_TagType le (stream [13]) = Ok 13 (stream [])
    /\ readDocument le (stream [10; 0; 0;  13; 0; 1; 65;  0])
       = Throw (runtime_error "makeTag: TagType 13 not found") (stream [0])).
Proof. split; split; vm_compute; reflexivity. Qed.

Lemma readStream_TagType_any_byte_witness :
  readStream_TagType true (mk_istream [x0d] true)
  = Ok (byte.unsigned x0d) (mk_istream [] true)
  /\ makeTag true 0 (byte.unsigned x0d) None (stream [])
     = Throw (runtime_error
                ("makeTag: TagType " ++ to_string (byte.unsigned x0d)
                 ++ " not found")) (stream []).
Proof.
  destruct (readStream_TagType_any_byte true x0d []) as [H1 H2].
  split; [exact H1 |]. apply H2.
  change (byte.unsigned x0d) with 13. lia.
Defined.

Lemma TagList_decode_nonpositive_length_witness :
  TagList_decode true (makeTag true 1) (stream [1; 0; 0; 0; 0])
  = Throw (runtime_error
             "TagList::decode: not implement for variant length list")
          (stream [])
  /\ makeTag true 1 TAG_LIST None (stream [1; 0; 0; 0; 0])
     = Throw (runtime_error
                "TagList::decode: not implement for variant length list")
             (stream [])
  /\ TagArray_decode true int8_t (stream [0; 0; 0; 0]) = Ok [] (stream []).
Proof.
  destruct (TagList_decode_nonpositive_length true (makeTag true 1)
              (stream [1; 0; 0; 0; 0]) (stream [0; 0; 0; 0]) (stream []) 1 0)
    as (H1 & H2 & H4);
    [vm_compute; reflexivity | vm_compute; reflexivity | lia |].
  split; [exact H1 |]. split; [apply H2 | by apply H4].
Defined.

Lemma readDocument_root_witness :
  (readDocument true (stream [1; 0])
   = Throw (runtime_error
              "readDocument: document should be a named compound")
           (stream [0])
   /\ length (unread (stream [1; 0])) = S (length (unread (stream [0]))))
  /\ readDocument true (stream nested_document) <> OutOfFuel
  /\ readDocument true (stream nested_document) = Ok nested_root (stream [])
  /\ exists name children,
       nested_root = node_of (Some (text_as_read name)) (WCompound children)
       /\ unread (stream nested_document)
          = encode_document name children ++ [].
Proof.
  assert (Hty : readStream_TagType true (stream nested_document)
                = Ok 10 (stream (tail nested_document)))
    by (vm_compute; reflexivity).
  pose (children :=
          [("l"%string,
            WList TAG_COMPOUND
              [WCompound [("b"%string, WSingle int8_t TAG_BYTE 7)]])]).
  assert (Hroot : node_of (Some (text_as_read EmptyString))
                    (WCompound children) = nested_root)
    by (vm_compute; reflexivity).
  assert (Hdoc : readDocument true (stream nested_document)
                 = Ok nested_root (stream [])).
  { rewrite <- Hroot.
    refine (proj2 (proj1 (proj2 (proj2 (readDocument_root true
                                          (stream nested_document)
                                          (stream (tail nested_document))
                                          10 Hty)
                                  eq_refl))
                     EmptyString children [] _ _ _)).
    - vm_compute. reflexivity.
    - vm_compute. split; [discriminate | reflexivity].
    - vm_compute. repeat split; discriminate. }
  split; [| split; [| split]].
  - apply (proj1 (readDocument_root true (stream [1; 0]) (stream [0]) 1
                    ltac:(vm_compute; reflexivity))).
    lia.
  - exact (proj1 (proj2 (readDocument_root true (stream nested_document)
                           (stream (tail nested_document)) 10 Hty)
                   eq_refl)).
  - exact Hdoc.
  - destruct (proj2 (proj2 (proj2 (readDocument_root true
                                     (stream nested_document)
                                     (stream (tail nested_document)) 10 Hty)
                             eq_refl))
                nested_root (stream []) Hdoc)
      as (name & children' & H1 & H2 & _).
    by exists name, children'.
Defined.

Lemma makeTag_dispatch_witness :
  makeTag true 0 TAG_END None (stream [])
  = Throw (invalid_argument "makeTag: TagType shouldn't be TAG_END") (stream [])
  /\ makeTag true 0 13 None (stream [])
     = Throw (runtime_error ("makeTag: TagType " ++ to_string 13 ++ " not found"))
             (stream [])
  /\ (forall fuel name buf t buf',
        makeTag true fuel TAG_BYTE name buf = Ok t buf' ->
        getTagType t = TAG_BYTE /\ getName t = name
        /\ node_class TAG_BYTE name t)
  /\ makeTag true 9 TAG_LIST (Some "l"%string)
       (stream [1; 0; 0; 0; 2; 5; 255; 7])
     = Ok (TagList (Some "l"%string) TAG_BYTE
             [TagSingle int8_t TAG_BYTE None 5;
              TagSingle int8_t TAG_BYTE None (-1)])
          (stream [7]).
Proof.
  split; [| split; [| split]].
  - by apply (proj1 (makeTag_dispatch true 0)).
  - apply (proj1 (proj2 (makeTag_dispatch true 13))). lia.
  - intros fuel name buf t buf' Ht.
    destruct (proj1 (proj2 (proj2 (makeTag_dispatch true 1)) ltac:(lia))
                fuel name buf t buf' Ht)
      as (H1 & H2 & H3 & _).
    by repeat split.
  - pose (w := WList TAG_BYTE
                 [WSingle int8_t TAG_BYTE 5; WSingle int8_t TAG_BYTE (-1)]).
    assert (Hin : stream [1; 0; 0; 0; 2; 5; 255; 7]
                  = mk_istream (encode_payload w ++ [x07]) true)
      by (vm_compute; reflexivity).
    rewrite Hin.
    apply (proj1 (proj2 (proj2 (proj2 (makeTag_dispatch true 9))
                            ltac:(lia)))
             w 9%nat (Some "l"%string) [x07]).
    + reflexivity.
    + vm_compute. repeat split; discriminate.
    + vm_compute. lia.
Defined.

(** C8, on the text "A": the reference encoder writes [00 01 41], and the
    decoder returns "A" followed by a zero byte, which is not "A". *)
Theorem text_round_trip_adds_a_byte :
  text_encode "A" = bytes_of [0; 1; 65]
  /\ both_hosts (fun le =>
       readStream_string le (mk_istream (text_encode "A") true)
       = Ok ("A" ++ nul)%string (stream []))
  /\ ("A" ++ nul)%string <> "A"%string.
Proof.
  split; [vm_compute; reflexivity |].
  split; [split; vm_compute; reflexivity | discriminate].
Qed.

Lemma readDocument_name_placement_witness :
  readDocument true (stream nested_document) = Ok nested_root (stream [])
  /\ getName nested_root = Some nul
  /\ name_placement nested_root.
Proof.
  assert (H : readDocument true (stream nested_document)
              = Ok nested_root (stream []))
    by (vm_compute; reflexivity).
  split; [exact H |]. split; [reflexivity |].
  exact (proj2 (readDocument_name_placement true _ _ _ H)).
Defined.


(** ** The host's byte order does not show *)

Lemma bind_agree {A B : Type} (m m' : reader A) (k k' : A -> reader B) :
  agree m m' -> (forall a, agree (k a) (k' a)) ->
  agree (bind m k) (bind m' k').
Proof.
  intros Hm Hk buf. unfold bind. rewrite Hm.
  destruct (m' buf); try done. apply Hk.
Qed.

Lemma agree_refl {A : Type} (m : reader A) : agree m m.
Proof. by intros buf. Qed.

Lemma readStream_agree (le le' : bool) (T : ctype) :
  agree (readStream le T) (readStream le' T).
Proof.
  intros buf. destruct (good buf) eqn:Hg;
    [| by rewrite !readStream_short by auto].
  destruct (Nat.le_gt_cases (sizeof T) (length (unread buf))) as [Hn | Hn];
    [by rewrite !readStream_enough | by rewrite !readStream_short by auto].
Qed.

Lemma readStream_string_agree (le le' : bool) :
  agree (readStream_string le) (readStream_string le').
Proof.
  apply bind_agree; [apply readStream_agree | intros len; apply agree_refl].
Qed.

Lemma TagArray_decode_agree (le le' : bool) (T : ctype) :
  agree (TagArray_decode le T) (TagArray_decode le' T).
Proof.
  apply bind_agree; [apply readStream_agree |]. intros len.
  destruct (len <=? 0); [apply agree_refl |].
  induction (Z.to_nat len) as [| n IH]; simpl; [apply agree_refl |].
  apply bind_agree; [apply readStream_agree |]. intros elem.
  apply bind_agree; [done | intros rest; apply agree_refl].
Qed.

Lemma TagList_loop_agree (mk mk' : reader Tag) (n : nat) :
  agree mk mk' -> agree (TagList_loop mk n) (TagList_loop mk' n).
Proof.
  intros Hmk. induction n as [| n IH]; simpl; [apply agree_refl |].
  apply bind_agree; [done |]. intros elem.
  apply bind_agree; [done | intros rest; apply agree_refl].
Qed.

Lemma TagCompound_decode_agree (le le' : bool)
    (mk mk' : TagType -> option string -> reader Tag) (fuel : nat)
    (val_ : gmap string Tag) :
  (forall type name, agree (mk type name) (mk' type name)) ->
  agree (TagCompound_decode le mk fuel val_)
        (TagCompound_decode le' mk' fuel val_).
Proof.
  intros Hmk. revert val_.
  induction fuel as [| fuel IH]; intros val_; simpl; [apply agree_refl |].
  apply bind_agree; [apply readStream_agree |]. intros type.
  destruct (type =? 0); [apply agree_refl |].
  apply bind_agree; [apply readStream_string_agree |]. intros name.
  apply bind_agree; [apply Hmk |]. intros tag. apply IH.
Qed.

Lemma makeTag_agree (le le' : bool) (fuel : nat) (type : TagType)
    (name : option string) :
  agree (makeTag le fuel type name) (makeTag le' fuel type name).
Proof.
  revert type name. induction fuel as [| fuel IH]; intros type name;
    pose proof (TagType_cases type) as Hc;
    repeat (destruct Hc as [-> | Hc]);
    try apply agree_refl;
    try (apply bind_agree;
         [first [apply readStream_agree | apply readStream_string_agree
                | apply TagArray_decode_agree]
         | intros v; apply agree_refl]);
    try (rewrite !makeTag_unknown by done; apply agree_refl).
  - rewrite !makeTag_list.
    apply bind_agree; [| intros d; apply agree_refl].
    apply bind_agree; [apply readStream_agree |]. intros elemType_.
    apply bind_agree; [apply readStream_agree |]. intros len.
    destruct (len <=? 0); [apply agree_refl |].
    apply bind_agree; [| intros v; apply agree_refl].
    apply TagList_loop_agree, IH.
  - rewrite !makeTag_compound.
    apply bind_agree; [| intros d; apply agree_refl].
    by apply TagCompound_decode_agree.
Qed.

(** X13.  The outcome of a decode does not depend on the byte order of the
    host: on every stream a little-endian and a big-endian host read the
    same values, build the same tree and throw the same exceptions. *)
Theorem readDocument_host_independent (le le' : bool) (buf : istream) :
  readDocument le buf = readDocument le' buf
  /\ (forall fuel type name,
        makeTag le fuel type name buf = makeTag le' fuel type name buf)
  /\ (forall T, readStream le T buf = readStream le' T buf).
Proof.
  split; [| split].
  - revert buf. apply bind_agree; [apply readStream_agree |]. intros type.
    destruct (negb (type =? 10)); [apply agree_refl |].
    apply bind_agree; [apply readStream_string_agree |].
    intros name b. apply makeTag_agree.
  - intros fuel type name. apply makeTag_agree.
  - intros T. apply readStream_agree.
Qed.

(** ** The further properties on concrete streams *)

Lemma swapEndian_involutive_witness :
  swapEndian true int16_t (swapEndian true int16_t (-2)) = -2.
Proof.
  apply (swapEndian_involutive true int16_t (-2)).
  vm_compute. split; [discriminate | reflexivity].
Defined.

Lemma refineBigEndian_big_endian_witness :
  refineBigEndian true int16_t (object_value true int16_t [xff; xfe])
  = wrap int16_t (le_combine (rev [xff; xfe]))
  /\ in_range int16_t
       (refineBigEndian true int16_t (object_value true int16_t [xff; xfe])).
Proof.
  apply (refineBigEndian_big_endian true int16_t [xff; xfe]). reflexivity.
Defined.

Lemma readStream_big_endian_witness :
  readStream true int16_t (mk_istream ([xff; xfe] ++ [x07]) true)
  = Ok (big_endian_value int16_t [xff; xfe]) (mk_istream [x07] true)
  /\ in_range int16_t (big_endian_value int16_t [xff; xfe]).
Proof.
  apply (readStream_big_endian true int16_t [xff; xfe] [x07]). reflexivity.
Defined.

Lemma readStream_round_trip_witness :
  readStream true int32_t
    (mk_istream (big_endian_encode (sizeof int32_t) (-5) ++ []) true)
  = Ok (-5) (mk_istream [] true).
Proof.
  apply (readStream_round_trip true int32_t (-5) []).
  vm_compute. split; [discriminate | reflexivity].
Defined.

Lemma readStream_string_complete_witness :
  readStream_string true (mk_istream ([x00; x01] ++ [x41] ++ []) true)
  = Ok (string_of_list_byte ([x41] ++ [x00])) (mk_istream [] true)
  /\ String.length (string_of_list_byte ([x41] ++ [x00])) = 2%nat.
Proof.
  apply (readStream_string_complete true [x00; x01] [x41] []);
    [reflexivity | vm_compute; reflexivity].
Defined.

Lemma TagArray_decode_elements_witness :
  exists len buf1,
    readStream true uint32_t (stream [0; 0; 0; 2;  0; 1;  255; 255])
    = Ok len buf1
    /\ length ([1; -1]%Z : list Z) = Z.to_nat len
    /\ Forall (in_range int16_t) [1; -1]
    /\ (forall i, (i < length ([1; -1]%Z : list Z))%nat ->
          ([1; -1]%Z : list Z) !! i
          = Some (big_endian_value int16_t
                    (take (sizeof int16_t)
                       (drop (i * sizeof int16_t) (unread buf1)))))
    /\ length (unread (stream [0; 0; 0; 2;  0; 1;  255; 255]))
       = (4 + length ([1; -1]%Z : list Z) * sizeof int16_t
          + length (unread (stream [])))%nat.
Proof.
  apply (TagArray_decode_elements true int16_t
           (stream [0; 0; 0; 2;  0; 1;  255; 255]) (stream []) [1; -1]).
  vm_compute. reflexivity.
Defined.

Lemma TagList_decode_elements_witness :
  exists L buf1 buf2,
    readStream_TagType true (stream [1; 0; 0; 0; 2; 5; 6]) = Ok 1 buf1
    /\ readStream true int32_t buf1 = Ok L buf2
    /\ 0 < L
    /\ length [TagSingle int8_t 1 None 5; TagSingle int8_t 1 None 6]
       = Z.to_nat L
    /\ [TagSingle int8_t 1 None 5; TagSingle int8_t 1 None 6] <> []
    /\ 1 <= 1 <= 12
    /\ Forall (fun t => getTagType t = 1 /\ getName t = None)
         [TagSingle int8_t 1 None 5; TagSingle int8_t 1 None 6].
Proof.
  apply (TagList_decode_elements true 0 (stream [1; 0; 0; 0; 2; 5; 6])
           (stream []) 1
           [TagSingle int8_t 1 None 5; TagSingle int8_t 1 None 6]).
  vm_compute. reflexivity.
Defined.

Lemma decoded_tree_well_formed_witness :
  well_formed nested_root /\ 1 <= getTagType nested_root <= 12.
Proof.
  destruct (decoded_tree_well_formed true 0 TAG_COMPOUND None
              (stream nested_document) (stream []) nested_root)
    as (_ & H2 & H3).
  assert (Hwf : well_formed nested_root)
    by (apply H2; vm_compute; reflexivity).
  split; [exact Hwf | exact (H3 Hwf)].
Defined.

Lemma makeTag_forward_only_witness :
  exists consumed,
    unread (stream [0; 1; 9]) = consumed ++ unread (stream [9])
    /\ consumed <> [].
Proof.
  apply (makeTag_forward_only true 0 TAG_SHORT None (stream [0; 1; 9])
           (stream [9]) (TagSingle int16_t TAG_SHORT None 1)).
  vm_compute. reflexivity.
Defined.


Lemma unknown_type_rejected_at_construction_witness :
  TagCompound_decode true (makeTag true 0) 1 ∅ (stream [13; 0; 1; 65; 0])
  = Throw (runtime_error ("makeTag: TagType " ++ to_string 13 ++ " not found"))
          (stream [0])
  /\ TagList_decode true (makeTag true 0) (stream [13; 0; 0; 0; 2; 5])
     = Throw (runtime_error
                ("makeTag: TagType " ++ to_string 13 ++ " not found"))
             (stream [5]).
Proof.
  split.
  - apply (proj1 (unknown_type_rejected_at_construction true 0
                    (stream [13; 0; 1; 65; 0]) (stream [0; 1; 65; 0]) 13
                    ltac:(vm_compute; reflexivity) ltac:(lia))
             ("A" ++ nul)%string (stream [0]) ∅).
    vm_compute. reflexivity.
  - apply (proj2 (unknown_type_rejected_at_construction true 0
                    (stream [13; 0; 0; 0; 2; 5]) (stream [0; 0; 0; 2; 5]) 13
                    ltac:(vm_compute; reflexivity) ltac:(lia))
             2 (stream [5])).
    + vm_compute. reflexivity.
    + lia.
Defined.

Lemma TAGTYPE_TO_NAME_covers_decoded_witness :
  is_Some (TAGTYPE_TO_NAME !! getTagType nested_root).
Proof.
  apply (proj2 (proj2 (TAGTYPE_TO_NAME_covers_decoded true 20 TAG_COMPOUND
                         (Some nul) (stream (drop 3 nested_document))
                         (stream []) nested_root))).
  vm_compute. reflexivity.
Defined.

Lemma TagCompound_decode_new_name_witness :
  let tag := TagSingle int8_t TAG_BYTE (Some ("x" ++ nul)%string) 8 in
  TagCompound_decode true (makeTag true 0) 2 ∅ (stream [1; 0; 1; 120; 8; 0])
  = TagCompound_decode true (makeTag true 0) 1
      (<[("x" ++ nul)%string := tag]> ∅) (stream [0])
  /\ getName tag = Some ("x" ++ nul)%string
  /\ forall val' buf',
       TagCompound_decode true (makeTag true 0) 2 ∅
         (stream [1; 0; 1; 120; 8; 0]) = Ok val' buf' ->
       val' !! ("x" ++ nul)%string = Some tag.
Proof.
  intros tag.
  apply (TagCompound_decode_new_name true 0 1 ∅
           (stream [1; 0; 1; 120; 8; 0]) (stream [0; 1; 120; 8; 0])
           (stream [8; 0]) (stream [0]) 1 ("x" ++ nul)%string tag);
    [vm_compute; reflexivity | lia | vm_compute; reflexivity
    | vm_compute; reflexivity | reflexivity].
Defined.

Lemma readDocument_leaves_stream_good_witness :
  good (stream nested_document) = true /\ good (stream []) = true
  /\ (length (unread (stream [])) + 4
      <= length (unread (stream nested_document)))%nat.
Proof.
  apply (readDocument_leaves_stream_good true (stream nested_document)
           (stream []) nested_root).
  vm_compute. reflexivity.
Defined.
